(** * Portfolio_2026: the behaviour layer of the portfolio page (script.js)

    A shallow embedding of the handlers of [script.js] and of the
    animation add-on that ships with it, followed by the properties
    that the specification states about them.

    Conventions of the embedding.
    - A JavaScript string that the code stores, compares, concatenates
      or searches for ASCII characters (class names, identifiers,
      messages, a phone number, an address) is a [string], the UTF-8
      form of the text: a digit, a slash or an ASCII white space is
      the same byte there and no part of another character.  Where
      the code counts or classifies the code units of a string (the
      address check of the newsletter with [\s], the typing effect
      with [length] and [charAt]) the string is a [Js.str], the
      sequence of its UTF-16 code units.
    - Class lists are finite sets of strings; [localStorage] is a
      finite map from keys to values.  A DOM call that throws is a
      function into [option].
    - A JavaScript number is a [Js.number]: a rational or one of the
      three IEEE special values.  Comparisons of finite doubles are
      exact, so they agree with the rational ones.  The handlers of
      the page are modelled with exact arithmetic, and the properties
      stated of them are those that rounding leaves true.  The
      sign of zero is not modelled.
    - The canvas particle loop is modelled twice.  [Double] writes the
      rounding of each operation out, and the loop over it is the one
      the statement about the repulsion is proved of.  The loop over
      the real numbers serves for what does not depend on the
      arithmetic: which fields of a particle a frame writes, and how.
    - What the browser or the engine decides (layout rectangles,
      constraint validation, [Math.random], clocks, the values of
      [Math.cos] and [Math.sin]) enters as an explicit argument of the
      handler that reads it. *)

From Stdlib Require Import ZArith QArith Qround Qpower Qabs List Bool Ascii String.
From Stdlib Require Import Reals Psatz.
From stdpp Require Import base option list gmap sets strings pretty.

Set Default Proof Using "Type".

(** ** JavaScript numbers *)

Module Js.

Inductive number : Type :=
| Fin (q : Q)
| PosInf
| NegInf
| NaN.


(** [a < b]; every comparison with [NaN] is false. *)
Definition lt (a b : number) : bool :=
  match a, b with
  | NaN, _ | _, NaN => false
  | Fin x, Fin y => negb (Qle_bool y x)
  | Fin _, PosInf => true
  | Fin _, NegInf => false
  | PosInf, _ => false
  | NegInf, NegInf => false
  | NegInf, _ => true
  end.

(** [a <= b]. *)
Definition le (a b : number) : bool :=
  match a, b with
  | NaN, _ | _, NaN => false
  | Fin x, Fin y => Qle_bool x y
  | Fin _, PosInf => true
  | Fin _, NegInf => false
  | PosInf, PosInf => true
  | PosInf, _ => false
  | NegInf, _ => true
  end.

Definition gt (a b : number) : bool := lt b a.
Definition ge (a b : number) : bool := le b a.

(** The sign of a rational as a comparison with zero. *)
Definition sgn (q : Q) : comparison := (0 ?= q)%Q.

Definition add (a b : number) : number :=
  match a, b with
  | NaN, _ | _, NaN => NaN
  | Fin x, Fin y => Fin (x + y)
  | PosInf, NegInf | NegInf, PosInf => NaN
  | PosInf, _ | _, PosInf => PosInf
  | NegInf, _ | _, NegInf => NegInf
  end.

Definition sub (a b : number) : number :=
  match a, b with
  | NaN, _ | _, NaN => NaN
  | Fin x, Fin y => Fin (x - y)
  | Fin _, PosInf => NegInf
  | Fin _, NegInf => PosInf
  | PosInf, PosInf => NaN
  | PosInf, _ => PosInf
  | NegInf, NegInf => NaN
  | NegInf, _ => NegInf
  end.

(** The infinity [+oo] (or [-oo] when [positive] is false) times the
    sign of [q]; [NaN] when [q] is zero. *)
Definition inf_times (positive : bool) (q : Q) : number :=
  match sgn q with
  | Lt => if positive then PosInf else NegInf
  | Gt => if positive then NegInf else PosInf
  | Eq => NaN
  end.

Definition mul (a b : number) : number :=
  match a, b with
  | NaN, _ | _, NaN => NaN
  | Fin x, Fin y => Fin (x * y)
  | Fin x, PosInf | PosInf, Fin x => inf_times true x
  | Fin x, NegInf | NegInf, Fin x => inf_times false x
  | PosInf, PosInf | NegInf, NegInf => PosInf
  | PosInf, NegInf | NegInf, PosInf => NegInf
  end.

(** Division.  A zero divisor gives an infinity of the sign of the
    dividend, and [NaN] for [0 / 0]. *)
Definition div (a b : number) : number :=
  match a, b with
  | NaN, _ | _, NaN => NaN
  | Fin x, Fin y =>
      match sgn y with
      | Eq => inf_times true x
      | _ => Fin (x / y)
      end
  | Fin _, _ => Fin 0
  | PosInf, Fin y => match sgn y with Gt => NegInf | _ => PosInf end
  | NegInf, Fin y => match sgn y with Gt => PosInf | _ => NegInf end
  | _, _ => NaN
  end.

(** [Math.round]: the nearest integer, halves going up. *)
Definition round (a : number) : number :=
  match a with
  | Fin x => Fin (inject_Z (Qfloor (x + (1 # 2))))
  | _ => a
  end.

(** Truthiness of a number: everything but zero and [NaN]. *)
Definition truthy (a : number) : bool :=
  match a with
  | NaN => false
  | Fin x => negb (Qeq_bool x 0)
  | _ => true
  end.

(** [a || b] on numbers. *)
Definition or_else (a b : number) : number := if truthy a then a else b.

(** Truthiness of a string: everything but the empty string. *)
Definition truthy_string (s : string) : bool :=
  match s with EmptyString => false | _ => true end.

(** A string as the sequence of its UTF-16 code units, which is what
    [length], [charAt] and a regular expression without the [u] flag
    see of it. *)
Definition str := list N.

(** A byte of the form [10xxxxxx]. *)
Definition continuation (b : N) : bool := (128 <=? b)%N && (b <? 192)%N.

(** The code units of a code point: itself, or a surrogate pair. *)
Definition units_of_code_point (cp : N) : str :=
  if (cp <? 65536)%N then [cp]
  else [(55296 + N.shiftr (cp - 65536) 10)%N; (56320 + N.land (cp - 65536) 1023)%N].

(** The code units of a string written in UTF-8, as the literals of
    this file are; a byte that starts no sequence gives U+FFFD. *)
Fixpoint utf16 (s : string) : str :=
  match s with
  | EmptyString => []
  | String a0 s1 =>
      let b0 := N_of_ascii a0 in
      if (b0 <? 128)%N then b0 :: utf16 s1
      else
        match s1 with
        | String a1 s2 =>
            let b1 := N_of_ascii a1 in
            if (192 <=? b0)%N && (b0 <? 224)%N && continuation b1
            then ((b0 - 192) * 64 + (b1 - 128))%N :: utf16 s2
            else
              match s2 with
              | String a2 s3 =>
                  let b2 := N_of_ascii a2 in
                  if (224 <=? b0)%N && (b0 <? 240)%N && continuation b1 && continuation b2
                  then ((b0 - 224) * 4096 + (b1 - 128) * 64 + (b2 - 128))%N :: utf16 s3
                  else
                    match s3 with
                    | String a3 s4 =>
                        let b3 := N_of_ascii a3 in
                        if (240 <=? b0)%N && (b0 <? 248)%N && continuation b1
                           && continuation b2 && continuation b3
                        then units_of_code_point
                               ((b0 - 240) * 262144 + (b1 - 128) * 4096
                                + (b2 - 128) * 64 + (b3 - 128))%N
                             ++ utf16 s4
                        else 65533%N :: utf16 s1
                    | EmptyString => 65533%N :: utf16 s1
                    end
              | EmptyString => 65533%N :: utf16 s1
              end
        | EmptyString => [65533%N]
        end
  end.

End Js.

Abbreviation num := Js.Fin (only parsing).

(** ** Double precision *)

(** The arithmetic of the canvas particle loop with its rounding
    written out: a finite double is the rational it stands for, and an
    operation returns the double nearest to its exact result, ties
    going to the even significand (IEEE 754 binary64: 53 significant
    bits, least exponent -1074, overflow to an infinity). *)
Module Double.

(** The binade of a positive rational: the [e] with
    [2^e <= q < 2^(e+1)]. *)
Definition binade (q : Q) : Z :=
  let c := (Z.log2 (Qnum q) - Z.log2 (Zpos (Qden q)))%Z in
  if Qle_bool (2 ^ c) q then c else (c - 1)%Z.

(** The exponent of the unit in the last place of the doubles around
    [q]: 52 below the binade, and -1074 among the subnormal numbers. *)
Definition ulp_exponent (q : Q) : Z := Z.max (binade (Qabs q) - 52) (-1074).

(** The nearest integer, a tie going to the even one. *)
Definition nearest_even (q : Q) : Z :=
  let f := Qfloor q in
  match (q - inject_Z f ?= 1 # 2)%Q with
  | Lt => f
  | Gt => (f + 1)%Z
  | Eq => if Z.even f then f else (f + 1)%Z
  end.

(** The nearest double, were the exponent unbounded above. *)
Definition round (q : Q) : Q :=
  if Qeq_bool q 0 then 0
  else (inject_Z (nearest_even (q / 2 ^ ulp_exponent q)) * 2 ^ ulp_exponent q)%Q.

(** The largest double. *)
Definition max_value : Q := (inject_Z (2 ^ 53 - 1) * 2 ^ 971)%Q.

(** The double an operation returns when its exact result is [a]. *)
Definition of_exact (a : Js.number) : Js.number :=
  match a with
  | Js.Fin q =>
      let r := round q in
      if Qle_bool (Qabs r) max_value then Js.Fin r
      else if Qle_bool 0 r then Js.PosInf else Js.NegInf
  | _ => a
  end.

Definition add (a b : Js.number) : Js.number := of_exact (Js.add a b).
Definition sub (a b : Js.number) : Js.number := of_exact (Js.sub a b).
Definition mul (a b : Js.number) : Js.number := of_exact (Js.mul a b).
Definition div (a b : Js.number) : Js.number := of_exact (Js.div a b).

(** The double nearest to the square root of a positive rational: the
    root of [q / 4^e] is cut to an integer [m] and compared with
    [m + 1/2] by its square. *)
Definition sqrt_round (q : Q) : Q :=
  let e := Z.max (binade q / 2 - 52) (-1074) in
  let scaled := (q / 2 ^ (2 * e))%Q in
  let m := Z.sqrt (Qfloor scaled) in
  let half := (inject_Z m + (1 # 2))%Q in
  (inject_Z match (scaled ?= half * half)%Q with
            | Lt => m
            | Gt => (m + 1)%Z
            | Eq => if Z.even m then m else (m + 1)%Z
            end * 2 ^ e)%Q.

(** [Math.sqrt], correctly rounded as the engines compute it. *)
Definition sqrt (a : Js.number) : Js.number :=
  match a with
  | Js.Fin q =>
      match (0 ?= q)%Q with
      | Lt => Js.Fin (sqrt_round q)
      | Eq => Js.Fin 0
      | Gt => Js.NaN
      end
  | Js.PosInf => Js.PosInf
  | _ => Js.NaN
  end.

End Double.

(** ** Utils *)

Module Utils.

(** [\d]: an ASCII decimal digit. *)
Definition is_digit (c : ascii) : bool :=
  (48 <=? nat_of_ascii c)%nat && (nat_of_ascii c <=? 57)%nat.

(** Two characters matched by one group [(\d{2})], and what follows. *)
Definition two_digits (s : string) : option (string * string) :=
  match s with
  | String a (String b rest) =>
      if is_digit a && is_digit b
      then Some (String a (String b EmptyString), rest)
      else None
  | _ => None
  end.

(** The regular expression [(\d{2})(\d{2})(\d{2})(\d{2})(\d{2})]
    anchored at the head of [s]: the five captured groups and the
    text after the match. *)
Definition match_here (s : string) : option (list string * string) :=
  g1 ← two_digits s;
  g2 ← two_digits g1.2;
  g3 ← two_digits g2.2;
  g4 ← two_digits g3.2;
  g5 ← two_digits g4.2;
  Some ([g1.1; g2.1; g3.1; g4.1; g5.1], g5.2).

(** The replacement pattern ['$1 $2 $3 $4 $5']. *)
Definition expand (groups : list string) : string :=
  match groups with
  | [g1; g2; g3; g4; g5] =>
      g1 +:+ " " +:+ g2 +:+ " " +:+ g3 +:+ " " +:+ g4 +:+ " " +:+ g5
  | _ => ""
  end.

(** [phone.replace(/(\d{2})(\d{2})(\d{2})(\d{2})(\d{2})/, '$1 $2 $3 $4 $5')]:
    the pattern has no [g] flag, so only the leftmost match is
    replaced. *)
Fixpoint formatPhone (phone : string) : string :=
  match match_here phone with
  | Some (groups, rest) => expand groups +:+ rest
  | None =>
      match phone with
      | EmptyString => EmptyString
      | String c tail => String c (formatPhone tail)
      end
  end.

(** [isInViewport(element, offset)] on the element's bounding rectangle
    ([top], [bottom]); [innerHeight] is [window.innerHeight] and
    [clientHeight] is [document.documentElement.clientHeight]. *)
Definition isInViewport (innerHeight clientHeight : Js.number)
    (top bottom : Js.number) (offset : Js.number) : bool :=
  Js.le top (Js.mul (Js.or_else innerHeight clientHeight)
                    (Js.sub (num 1) offset))
  && Js.ge bottom (num 0).

End Utils.


(** ** The DOM pieces the handlers touch *)

Module Dom.

(** [classList.add], [classList.remove], [classList.toggle(token, force)]
    and [classList.contains] on a class list. *)
Definition add (token : string) (cl : gset string) : gset string := cl ∪ {[token]}.
Definition remove (token : string) (cl : gset string) : gset string := cl ∖ {[token]}.
Definition toggle (token : string) (force : bool) (cl : gset string) : gset string :=
  if force then add token cl else remove token cl.
Definition contains (token : string) (cl : gset string) : bool :=
  bool_decide (token ∈ cl).

(** ASCII white space as the DOM standard has it: TAB, LF, FF, CR and
    the space. *)
Definition is_ascii_whitespace (c : ascii) : bool :=
  match c with
  | "009" | "010" | "012" | "013" | " " => true
  | _ => false
  end%char.

Fixpoint has_ascii_whitespace (s : string) : bool :=
  match s with
  | EmptyString => false
  | String c rest => is_ascii_whitespace c || has_ascii_whitespace rest
  end.

(** A token that [classList.add] and [classList.remove] accept: the
    empty string is a [SyntaxError], a token with ASCII white space an
    [InvalidCharacterError]. *)
Definition valid_token (token : string) : bool :=
  negb (String.eqb token "") && negb (has_ascii_whitespace token).

(** [classList.add(t1, t2)] and [classList.remove(t1, t2)]: every
    token is checked before the list changes, so a call that throws
    ([None]) has changed nothing. *)
Definition add2 (t1 t2 : string) (cl : gset string) : option (gset string) :=
  if valid_token t1 && valid_token t2 then Some (add t2 (add t1 cl)) else None.

Definition remove2 (t1 t2 : string) (cl : gset string) : option (gset string) :=
  if valid_token t1 && valid_token t2 then Some (remove t2 (remove t1 cl)) else None.

(** A [CustomEvent] dispatched on [document]: its type and the one
    string its [detail] carries. *)
Record CustomEvent := { event_type : string; detail : string }.

(** A notification [div] appended to the body by [showNotification]
    or [showMessage]. *)
Record Notification := { message : string; kind : string }.

End Dom.

(** ** ThemeManager *)

Module ThemeManager.

(** [STATE.theme], the browser's local storage, the class list of
    [body], the [content] of [meta[name="theme-color"]] when the page
    has that element, and the custom events dispatched so far. *)
Record t := {
  theme : string;
  localStorage : gmap string string;
  body_classes : gset string;
  meta_theme_color : option string;
  dispatched : list Dom.CustomEvent;
}.

(** [localStorage.getItem(key)] read as a condition: [null] and the
    empty string are falsy. *)
Definition getItem_truthy (key : string) (storage : gmap string string) : bool :=
  match storage !! key with
  | Some v => Js.truthy_string v
  | None => false
  end.

(** The initial [STATE.theme]:
    [localStorage.getItem('theme') || (prefersDark ? 'dark' : 'light')]. *)
Definition initial_theme (storage : gmap string string) (prefers_dark : bool) : string :=
  match storage !! "theme" with
  | Some v => if Js.truthy_string v then v
              else if prefers_dark then "dark" else "light"
  | None => if prefers_dark then "dark" else "light"
  end.

Definition setTheme (th : string) (s : t) : t :=
  {| theme := th;
     localStorage := <["theme" := th]> (localStorage s);
     body_classes := Dom.toggle "dark-mode" (bool_decide (th = "dark")) (body_classes s);
     meta_theme_color :=
       match meta_theme_color s with
       | Some _ => Some (if bool_decide (th = "dark") then "#111827" else "#ffffff")
       | None => None
       end;
     dispatched := dispatched s |}.

Definition dispatchEvent (e : Dom.CustomEvent) (s : t) : t :=
  {| theme := theme s;
     localStorage := localStorage s;
     body_classes := body_classes s;
     meta_theme_color := meta_theme_color s;
     dispatched := dispatched s ++ [e] |}.

Definition toggleTheme (s : t) : t :=
  let newTheme := if bool_decide (theme s = "light") then "dark" else "light" in
  dispatchEvent {| Dom.event_type := "themeChange"; Dom.detail := newTheme |}
                (setTheme newTheme s).

(** [init]: [setTheme(STATE.theme)]; [bindEvents] only registers the
    two handlers below. *)
Definition init (s : t) : t := setTheme (theme s) s.

(** The [change] handler of the [prefers-color-scheme] media query. *)
Definition onSystemPreferenceChange (matches : bool) (s : t) : t :=
  if getItem_truthy "theme" (localStorage s) then s
  else setTheme (if matches then "dark" else "light") s.

(** Loading the page: [STATE] is built from the storage and the media
    query, then the manager is constructed. *)
Definition load (storage : gmap string string) (prefers_dark : bool)
    (body : gset string) (meta : option string) : t :=
  init {| theme := initial_theme storage prefers_dark;
          localStorage := storage;
          body_classes := body;
          meta_theme_color := meta;
          dispatched := [] |}.

(** What can happen to the theme after the page has loaded: a click on
    the switcher (or Alt+T), or a change of the system preference. *)
Inductive event := Toggle | SystemPreference (matches : bool).

Definition step (e : event) (s : t) : t :=
  match e with
  | Toggle => toggleTheme s
  | SystemPreference m => onSystemPreferenceChange m s
  end.

Definition run (es : list event) (s : t) : t := foldl (fun s e => step e s) s es.

End ThemeManager.

(** ** NavigationManager *)

Module NavigationManager.

Record ProgressBar := {
  width_percent : Js.number;   (* style.width, without its '%' *)
  aria_valuenow : Js.number;
}.

Record Section_ := { section_id : string; offsetTop : Js.number; sectionHeight : Js.number }.
Record NavLink := { href : string; link_classes : gset string }.

(** [STATE.scrollPosition], [STATE.menuOpen], the class lists of the
    navbar and of the menu, [aria-expanded] of the menu toggle,
    [body.style.overflow], the progress bar when the page has one, the
    navigation links, [this.currentSection] and the custom events
    dispatched so far. *)
Record t := {
  scrollPosition : Js.number;
  menuOpen : bool;
  navbar : gset string;
  navMenu : gset string;
  aria_expanded : string;
  body_overflow : string;
  progressBar : option ProgressBar;
  navLinks : list NavLink;
  currentSection : option string;
  dispatched : list Dom.CustomEvent;
}.

(** The measures of the document that the scroll handlers read. *)
Record Document := {
  body_scrollTop : Js.number;
  doc_scrollTop : Js.number;
  scrollHeight : Js.number;
  clientHeight : Js.number;
}.

Definition toggleMenu (s : t) : t :=
  let o := negb (menuOpen s) in
  {| scrollPosition := scrollPosition s;
     menuOpen := o;
     navbar := navbar s;
     navMenu := Dom.toggle "active" o (navMenu s);
     aria_expanded := if o then "true" else "false";
     body_overflow := if o then "hidden" else "";
     progressBar := progressBar s;
     navLinks := navLinks s;
     currentSection := currentSection s;
     dispatched := dispatched s |}.

Definition closeMenu (s : t) : t :=
  {| scrollPosition := scrollPosition s;
     menuOpen := false;
     navbar := navbar s;
     navMenu := Dom.remove "active" (navMenu s);
     aria_expanded := "false";
     body_overflow := "";
     progressBar := progressBar s;
     navLinks := navLinks s;
     currentSection := currentSection s;
     dispatched := dispatched s |}.

(** One iteration of the [forEach] of [setActiveNavLink]. *)
Definition visitSection (scrollPos : Js.number) (s : t) (sec : Section_) : t :=
  if Js.ge scrollPos (offsetTop sec)
     && Js.lt scrollPos (Js.add (offsetTop sec) (sectionHeight sec))
     && negb (bool_decide (currentSection s = Some (section_id sec)))
  then
    {| scrollPosition := scrollPosition s;
       menuOpen := menuOpen s;
       navbar := navbar s;
       navMenu := navMenu s;
       aria_expanded := aria_expanded s;
       body_overflow := body_overflow s;
       progressBar := progressBar s;
       navLinks :=
         map (fun l =>
                {| href := href l;
                   link_classes :=
                     let c := Dom.remove "active" (link_classes l) in
                     if bool_decide (href l = "#" +:+ section_id sec)
                     then Dom.add "active" c else c |})
             (navLinks s);
       currentSection := Some (section_id sec);
       dispatched :=
         dispatched s ++ [{| Dom.event_type := "sectionChange";
                             Dom.detail := section_id sec |}] |}
  else s.

Definition setActiveNavLink (sections : list Section_) (scrollY : Js.number) (s : t) : t :=
  foldl (visitSection (Js.add scrollY (num 100))) s sections.

(** The percentage [updateProgressBar] computes:
    [(winScroll / height) * 100]. *)
Definition winScroll (d : Document) : Js.number :=
  Js.or_else (body_scrollTop d) (doc_scrollTop d).

Definition scrollable_height (d : Document) : Js.number :=
  Js.sub (scrollHeight d) (clientHeight d).

Definition scrolled (d : Document) : Js.number :=
  Js.mul (Js.div (winScroll d) (scrollable_height d)) (num 100).

(** [style.width = value + '%']: the style keeps a declaration only
    if it parses as a width.  [NaN%], [Infinity%], [-Infinity%] and a
    negative percentage do not, and the width then stays as it was. *)
Definition set_width (value old : Js.number) : Js.number :=
  match value with
  | Js.Fin q => if Qle_bool 0 q then value else old
  | _ => old
  end.

Definition updateProgressBar (d : Document) (s : t) : t :=
  match progressBar s with
  | None => s
  | Some bar =>
      {| scrollPosition := scrollPosition s;
         menuOpen := menuOpen s;
         navbar := navbar s;
         navMenu := navMenu s;
         aria_expanded := aria_expanded s;
         body_overflow := body_overflow s;
         progressBar := Some {| width_percent := set_width (scrolled d) (width_percent bar);
                                aria_valuenow := Js.round (scrolled d) |};
         navLinks := navLinks s;
         currentSection := currentSection s;
         dispatched := dispatched s |}
  end.

(** [updateNavbar], with [currentScroll] the value of
    [window.pageYOffset]. *)
Definition updateNavbar (currentScroll : Js.number) (s : t) : t :=
  {| scrollPosition := currentScroll;
     menuOpen := menuOpen s;
     navbar :=
       if Js.gt currentScroll (num 100) then
         let scrolled_bar := Dom.add "scrolled" (navbar s) in
         if Js.gt currentScroll (scrollPosition s) && Js.gt currentScroll (num 200)
         then Dom.add "hidden" scrolled_bar
         else Dom.remove "hidden" scrolled_bar
       else Dom.remove "hidden" (Dom.remove "scrolled" (navbar s));
     navMenu := navMenu s;
     aria_expanded := aria_expanded s;
     body_overflow := body_overflow s;
     progressBar := progressBar s;
     navLinks := navLinks s;
     currentSection := currentSection s;
     dispatched := dispatched s |}.

End NavigationManager.

(** ** AnimationManager: scroll animations *)

Module AnimationManager.

(** An element of the page: its class list, its [data-animate]
    attribute, and the animation names captured by the [animationend]
    listeners that [animateElement] has added to it. *)
Record Element := {
  classes : gset string;
  data_animate : option string;
  animationend_listeners : list string;
}.

(** The bounding rectangle of an element, as the browser lays it out. *)
Record Rect := { top : Js.number; bottom : Js.number }.

(** What the browser reports when a handler runs: the height of the
    window and of the document element, and the rectangle of every
    element (by its index in the page). *)
Record Viewport := {
  innerHeight : Js.number;
  clientHeight : Js.number;
  rect : nat -> Rect;
}.

(** The elements of the page, the targets [this.observer] still
    observes, and the [inThrottle] flag of the throttled scroll
    listener. *)
Record t := {
  elements : list Element;
  observed : gset nat;
  inThrottle : bool;
}.

Definition set_classes (c : gset string) (el : Element) : Element :=
  {| classes := c;
     data_animate := data_animate el;
     animationend_listeners := animationend_listeners el |}.

(** The name a template literal gives to [element.dataset.animate]. *)
Definition animation_name (el : Element) : string :=
  match data_animate el with Some a => a | None => "undefined" end.

(** [animateElement(element)]: [None] when [classList.add] throws,
    which leaves the element as it was and adds no listener. *)
Definition animateElement (el : Element) : option Element :=
  cl ← Dom.add2 "animate__animated" ("animate__" +:+ animation_name el) (classes el);
  Some {| classes := cl;
          data_animate := data_animate el;
          animationend_listeners := animationend_listeners el ++ [animation_name el] |}.

(** One [animationend] listener, which captured [animation]; when its
    [classList.remove] throws, the class list stays as it is. *)
Definition onAnimationEnd (el : Element) (animation : string) : Element :=
  match Dom.remove2 "animate__animated" ("animate__" +:+ animation) (classes el) with
  | Some cl => set_classes cl el
  | None => el
  end.

(** The test [animateOnScroll] applies to one element. *)
Definition in_view (vp : Viewport) (i : nat) : bool :=
  Utils.isInViewport (innerHeight vp) (clientHeight vp)
                     (top (rect vp i)) (bottom (rect vp i)) (num (2 # 10)).

(** [animateOnScroll]: every [.scroll-animate] element that passes the
    viewport test with offset 0.2 gets the class [visible]. *)
Definition animateOnScroll (vp : Viewport) (els : list Element) : list Element :=
  imap (fun i el =>
          if Dom.contains "scroll-animate" (classes el) && in_view vp i
          then set_classes (Dom.add "visible" (classes el)) el
          else el)
       els.

(** One entry handed to the callback of [this.observer]. *)
Record Entry := { target : nat; isIntersecting : bool }.

(** The callback of the observer on one entry: [None] when
    [animateElement] throws, before [unobserve] is reached. *)
Definition onEntry (s : t) (e : Entry) : option t :=
  if isIntersecting e then
    match elements s !! target e with
    | Some el =>
        el' ← animateElement el;
        Some {| elements := <[target e := el']> (elements s);
                observed := observed s ∖ {[target e]};
                inThrottle := inThrottle s |}
    | None =>
        Some {| elements := elements s;
                observed := observed s ∖ {[target e]};
                inThrottle := inThrottle s |}
    end
  else Some s.

(** [entries.forEach(...)]: an exception ends the callback; what the
    entries before it did stays done, the entries after it are not
    looked at. *)
Fixpoint onEntries (s : t) (entries : list Entry) : t :=
  match entries with
  | [] => s
  | e :: rest =>
      match onEntry s e with
      | Some s' => onEntries s' rest
      | None => s
      end
  end.

Inductive event :=
| Scroll (vp : Viewport)          (* a scroll event on the window *)
| ThrottleTimer                   (* the 100 ms timer of the throttle *)
| Intersection (entries : list Entry)  (* the observer's callback *)
| AnimationEnd (i : nat).         (* [animationend] on element [i] *)

Definition step (e : event) (s : t) : t :=
  match e with
  | Scroll vp =>
      if inThrottle s then s
      else {| elements := animateOnScroll vp (elements s);
              observed := observed s;
              inThrottle := true |}
  | ThrottleTimer =>
      {| elements := elements s; observed := observed s; inThrottle := false |}
  | Intersection entries => onEntries s entries
  | AnimationEnd i =>
      {| elements :=
           alter (fun el => foldl onAnimationEnd el (animationend_listeners el))
                 i (elements s);
         observed := observed s;
         inThrottle := inThrottle s |}
  end.

Definition run (es : list event) (s : t) : t := foldl (fun s e => step e s) s es.

(** [initIntersectionObserver] then [initScrollAnimations]: every
    [data-animate] element is observed, the scroll listener is
    registered and [animateOnScroll] runs once. *)
Definition init (vp : Viewport) (els : list Element) : t :=
  {| elements := animateOnScroll vp els;
     observed :=
       list_to_set
         (omap (fun '(i, el) => match data_animate el with
                                | Some _ => Some i
                                | None => None
                                end)
               (imap pair els));
     inThrottle := false |}.

(** The class list of element [i], empty when there is no such element. *)
Definition classes_of (s : t) (i : nat) : gset string :=
  match elements s !! i with Some el => classes el | None => ∅ end.

End AnimationManager.

(** ** Promises of the simulated submissions *)

Module Promise.

(** The value a promise resolves with: [undefined], or the object
    [{ success: true }]. *)
Inductive value := Undefined | Success.

Inductive settled :=
| Resolved (v : value)
| Rejected (error : string).

(** A promise settled by a [setTimeout] callback: the delay in
    milliseconds and how it settles. *)
Record t := { delay : nat; outcome : settled }.

End Promise.

(** ** ContactFormManager *)

Module ContactFormManager.

(** [field.validity], which the browser computes. *)
Record Validity := { valid : bool; valueMissing : bool; typeMismatch : bool }.

(** An [input] or [textarea] of the form; [errorElement] is the text
    and the [display] of the element [<id>-error], when the page has
    one. *)
Record Field := {
  field_id : string;
  field_name : option string;   (* the [name] attribute, when it has one *)
  field_type : string;
  required : bool;
  value : string;
  defaultValue : string;
  field_classes : gset string;
  errorElement : option (string * string);
}.

Record SubmitButton := {
  disabled : bool;
  btn_text : option string;            (* text of [.btn-text], if present *)
  btn_loader_display : option string;  (* display of [.btn-loader], if present *)
}.

(** The fields, [STATE.formSubmitting], the submit button, the display
    of the success message when the page has one, the notifications
    shown so far and what went to [console.error]. *)
Record t := {
  fields : list Field;
  formSubmitting : bool;
  submitBtn : SubmitButton;
  successMessage : option string;
  notifications : list Dom.Notification;
  console_errors : list string;
}.

Definition getValidationMessage (v : Validity) (f : Field) : string :=
  if valueMissing v then "Ce champ est obligatoire."
  else if typeMismatch v && bool_decide (field_type f = "email")
       then "Veuillez entrer une adresse email valide."
       else "Veuillez corriger ce champ.".

Definition showError (f : Field) (msg : string) : Field :=
  {| field_id := field_id f; field_name := field_name f; field_type := field_type f;
     required := required f; value := value f; defaultValue := defaultValue f;
     field_classes := Dom.add "error" (field_classes f);
     errorElement := match errorElement f with
                     | Some _ => Some (msg, "block")
                     | None => None
                     end |}.

Definition hideError (f : Field) : Field :=
  {| field_id := field_id f; field_name := field_name f; field_type := field_type f;
     required := required f; value := value f; defaultValue := defaultValue f;
     field_classes := Dom.remove "error" (field_classes f);
     errorElement := match errorElement f with
                     | Some (text, _) => Some (text, "none")
                     | None => None
                     end |}.

Definition validateField (v : Validity) (f : Field) : Field * bool :=
  if valid v then (hideError f, true)
  else (showError f (getValidationMessage v f), false).

(** [validateForm]: every [required] field is validated, none is
    skipped after a failure. *)
Fixpoint validateForm (validity : string -> Validity) (fs : list Field)
  : list Field * bool :=
  match fs with
  | [] => ([], true)
  | f :: rest =>
      let '(rest', ok) := validateForm validity rest in
      if required f then
        let '(f', okf) := validateField (validity (field_id f)) f in
        (f' :: rest', okf && ok)
      else (f :: rest', ok)
  end.

Definition showNotification (msg kind : string) (s : t) : t :=
  {| fields := fields s; formSubmitting := formSubmitting s; submitBtn := submitBtn s;
     successMessage := successMessage s;
     notifications := notifications s ++ [{| Dom.message := msg; Dom.kind := kind |}];
     console_errors := console_errors s |}.

Definition setSubmittingState (submitting : bool) (b : SubmitButton) : SubmitButton :=
  {| disabled := submitting;
     btn_text := match btn_text b with
                 | Some _ => Some (if submitting then "Envoi en cours..."
                                   else "Envoyer le message")
                 | None => None
                 end;
     btn_loader_display := match btn_loader_display b with
                           | Some _ => Some (if submitting then "block" else "none")
                           | None => None
                           end |}.

(** [submitForm(data)]: after 1500 ms the callback draws
    [Math.random()], here [draw], and settles the promise. *)
Definition submitForm (data : gmap string string) (draw : Js.number) : Promise.t :=
  {| Promise.delay := 1500;
     Promise.outcome := if Js.gt draw (num (1 # 10))
                        then Promise.Resolved Promise.Success
                        else Promise.Rejected "Network error" |}.

(** The entries of [new FormData(form)] for the text fields of the
    form: a field enters under its [name], and a field without a name
    or with an empty one is left out. *)
Definition entries (fs : list Field) : list (string * string) :=
  omap (fun f => match field_name f with
                 | Some n => if Js.truthy_string n then Some (n, value f) else None
                 | None => None
                 end)
       fs.

(** [Object.fromEntries(new FormData(form))]: of two entries of the
    same name the later one stays. *)
Definition formData (s : t) : gmap string string :=
  list_to_map (reverse (entries (fields s))).

(** [form.reset()] and the removal of the [error] class that follows
    it in [handleSubmit]. *)
Definition reset_field (f : Field) : Field :=
  {| field_id := field_id f; field_name := field_name f; field_type := field_type f;
     required := required f; value := defaultValue f; defaultValue := defaultValue f;
     field_classes := Dom.remove "error" (field_classes f);
     errorElement := errorElement f |}.

(** [handleSubmit] up to its [await]: the state it leaves, and whether
    it got as far as awaiting [submitForm]. *)
Definition handleSubmit_begin (validity : string -> Validity) (s : t) : t * bool :=
  if formSubmitting s then (s, false)
  else
    let '(fs, ok) := validateForm validity (fields s) in
    if ok then
      ({| fields := fs; formSubmitting := true;
          submitBtn := setSubmittingState true (submitBtn s);
          successMessage := successMessage s;
          notifications := notifications s;
          console_errors := console_errors s |}, true)
    else
      (showNotification "Veuillez corriger les erreurs dans le formulaire." "error"
         {| fields := fs; formSubmitting := formSubmitting s;
            submitBtn := submitBtn s; successMessage := successMessage s;
            notifications := notifications s;
            console_errors := console_errors s |},
       false).

(** [handleSubmit] from the settling of the awaited promise on: the
    [try] body or the [catch] body, then [finally]. *)
Definition handleSubmit_resume (draw : Js.number) (s : t) : t :=
  let s1 :=
    match Promise.outcome (submitForm (formData s) draw) with
    | Promise.Resolved _ =>
        {| fields := map reset_field (fields s);
           formSubmitting := formSubmitting s;
           submitBtn := submitBtn s;
           successMessage := match successMessage s with
                             | Some _ => Some "flex"
                             | None => None
                             end;
           notifications := notifications s;
           console_errors := console_errors s |}
    | Promise.Rejected err =>
        let s' := showNotification "Une erreur est survenue. Veuillez réessayer."
                                   "error" s in
        {| fields := fields s'; formSubmitting := formSubmitting s';
           submitBtn := submitBtn s'; successMessage := successMessage s';
           notifications := notifications s';
           console_errors := console_errors s' ++ ["Form submission error: " +:+ err] |}
    end in
  {| fields := fields s1; formSubmitting := false;
     submitBtn := setSubmittingState false (submitBtn s1);
     successMessage := successMessage s1;
     notifications := notifications s1;
     console_errors := console_errors s1 |}.

(** A whole submission, with nothing else happening during the delay. *)
Definition handleSubmit (validity : string -> Validity) (draw : Js.number) (s : t) : t :=
  let '(s1, awaiting) := handleSubmit_begin validity s in
  if awaiting then handleSubmit_resume draw s1 else s1.

End ContactFormManager.

(** ** NewsletterManager *)

Module NewsletterManager.

(** The content of the submit button: the paper-plane icon, or the
    spinner while a submission is under way. *)
Inductive icon := PaperPlane | Spinner.

Record t := {
  email : Js.str;          (* value of the email input *)
  email_default : Js.str;
  button_disabled : bool;
  button_html : icon;
  notifications : list Dom.Notification;
}.

(** [\s] in a regular expression without the [u] flag, on a code
    unit: TAB, LF, VT, FF, CR, the space, the no-break space, the
    other space separators (U+1680, U+2000 to U+200A, U+202F, U+205F,
    U+3000), the line and paragraph separators (U+2028, U+2029) and
    U+FEFF. *)
Definition is_space (c : N) : bool :=
  ((9 <=? c) && (c <=? 13)
   || (c =? 32) || (c =? 160) || (c =? 5760)
   || (8192 <=? c) && (c <=? 8202)
   || (c =? 8232) || (c =? 8233) || (c =? 8239) || (c =? 8287)
   || (c =? 12288) || (c =? 65279))%N.

(** The code units of [@] and of the dot. *)
Definition at_sign : N := 64.
Definition dot : N := 46.

(** [[^\s@]]. *)
Definition plain (c : N) : bool := negb (is_space c) && negb (c =? at_sign)%N.

Definition is_empty (s : Js.str) : bool :=
  match s with [] => true | _ => false end.

(** [[^\s@]+] at the head of [s]: what is left after the longest run
    of plain code units. *)
Fixpoint skip_plain (s : Js.str) : Js.str :=
  match s with
  | c :: rest => if plain c then skip_plain rest else s
  | [] => s
  end.

(** [[^\s@]*\.[^\s@]+$]: all code units are plain and some dot has a
    code unit after it. *)
Fixpoint dot_inside (s : Js.str) : bool :=
  match s with
  | c :: rest =>
      plain c &&
      ((c =? dot)%N && negb (is_empty rest) && is_empty (skip_plain rest)
       || dot_inside rest)
  | [] => false
  end.

(** [/^[^\s@]+@[^\s@]+\.[^\s@]+$/.test(email)]. *)
Definition validateEmail (email : Js.str) : bool :=
  match email with
  | c :: _ =>
      plain c &&
      match skip_plain email with
      | a :: d :: domain => (a =? at_sign)%N && plain d && dot_inside domain
      | _ => false
      end
  | [] => false
  end.

Definition showMessage (msg kind : string) (s : t) : t :=
  {| email := email s; email_default := email_default s;
     button_disabled := button_disabled s; button_html := button_html s;
     notifications := notifications s ++ [{| Dom.message := msg; Dom.kind := kind |}] |}.

(** The promise [handleSubmit] awaits:
    [new Promise(resolve => setTimeout(resolve, 1000))]. *)
Definition simulated_send : Promise.t :=
  {| Promise.delay := 1000; Promise.outcome := Promise.Resolved Promise.Undefined |}.

Definition handleSubmit_begin (s : t) : t * bool :=
  if validateEmail (email s) then
    ({| email := email s; email_default := email_default s;
        button_disabled := true;
        button_html := Spinner;
        notifications := notifications s |}, true)
  else (showMessage "Veuillez entrer un email valide" "error" s, false).

Definition handleSubmit_resume (s : t) : t :=
  let s1 :=
    match Promise.outcome simulated_send with
    | Promise.Resolved _ =>
        let s' := showMessage "Merci pour votre inscription !" "success" s in
        {| email := email_default s'; email_default := email_default s';
           button_disabled := button_disabled s'; button_html := button_html s';
           notifications := notifications s' |}
    | Promise.Rejected _ => showMessage "Une erreur est survenue" "error" s
    end in
  {| email := email s1; email_default := email_default s1;
     button_disabled := false;
     button_html := PaperPlane;
     notifications := notifications s1 |}.

Definition handleSubmit (s : t) : t :=
  let '(s1, awaiting) := handleSubmit_begin s in
  if awaiting then handleSubmit_resume s1 else s1.

End NewsletterManager.

(** ** AnalyticsManager *)

Module AnalyticsManager.

Record Event := {
  id : string;
  name : string;
  data : list (string * string);
  timestamp : string;
}.

(** [this.events] and what went to [console.log]. *)
Record t := { events : list Event; console : list Event }.

(** [array.slice(-n)]: the last [n] elements. *)
Definition slice_last {A} (n : nat) (l : list A) : list A := drop (length l - n) l.

(** [logEvent(name, data)]; [new_id] is what [Utils.generateId()]
    returns and [now] what [new Date().toISOString()] returns. *)
Definition logEvent (new_id now : string) (name : string)
    (data : list (string * string)) (s : t) : t :=
  let event := {| id := new_id; name := name; data := data; timestamp := now |} in
  let pushed := events s ++ [event] in
  {| events := if (100 <? length pushed)%nat then slice_last 100 pushed else pushed;
     console := console s ++ [event] |}.

Definition init : t := {| events := []; console := [] |}.

(** The event [logEvent] builds from its arguments and from the
    identifier and the time it is given. *)
Definition event_of (entry : string * string * string * list (string * string)) : Event :=
  let '(new_id, now, name, data) := entry in
  {| id := new_id; name := name; data := data; timestamp := now |}.

(** A sequence of [logEvent] calls, oldest first. *)
Definition log_all (entries : list (string * string * string * list (string * string)))
    (s : t) : t :=
  foldl (fun s '(new_id, now, name, data) => logEvent new_id now name data s) s entries.

End AnalyticsManager.

(** ** ParticlesBackground *)

Module ParticlesBackground.

Local Open Scope R_scope.

Record Particle := {
  x : R; y : R;
  vx : R; vy : R;
  size : R;
  color : string;
  opacity : R;
}.

Record Mouse := { mouse_x : R; mouse_y : R; radius : R }.

(** The canvas size, [this.particles] and [this.mouse]. *)
Record t := {
  width : R;
  height : R;
  particles : list Particle;
  mouse : Mouse;
}.

(** [this.mouse] as the constructor sets it. *)
Definition initial_mouse : Mouse := {| mouse_x := 0; mouse_y := 0; radius := 100 |}.

Definition Rltb (a b : R) : bool := if Rlt_dec a b then true else false.

(** [Math.atan2(y, x)]. *)
Definition atan2 (y x : R) : R :=
  if Rlt_dec 0 x then atan (y / x)
  else if Rlt_dec x 0 then
         if Rlt_dec y 0 then atan (y / x) - PI else atan (y / x) + PI
       else if Rlt_dec 0 y then PI / 2
            else if Rlt_dec y 0 then - (PI / 2)
                 else 0.

(** The body of the [forEach] of [animate], up to the drawing, in
    exact arithmetic.  The code rounds each operation, so a position
    and the outcome of a comparison on it can differ from the ones
    here; a velocity is written by [*= -1] only, which is exact, and
    the size, the colour and the opacity are not written at all. *)
Definition move (w h : R) (m : Mouse) (p : Particle) : Particle :=
  let x1 := x p + vx p in
  let y1 := y p + vy p in
  let vx1 := if Rltb x1 0 || Rltb w x1 then vx p * -1 else vx p in
  let vy1 := if Rltb y1 0 || Rltb h y1 then vy p * -1 else vy p in
  let dx := mouse_x m - x1 in
  let dy := mouse_y m - y1 in
  let distance := sqrt (dx * dx + dy * dy) in
  if Rltb distance (radius m) then
    let angle := atan2 dy dx in
    let force := (radius m - distance) / radius m in
    {| x := x1 - cos angle * force * 2;
       y := y1 - sin angle * force * 2;
       vx := vx1; vy := vy1;
       size := size p; color := color p; opacity := opacity p |}
  else
    {| x := x1; y := y1; vx := vx1; vy := vy1;
       size := size p; color := color p; opacity := opacity p |}.

(** One frame: every particle is moved (and then drawn where it is). *)
Definition animate (s : t) : t :=
  {| width := width s; height := height s;
     particles := map (move (width s) (height s) (mouse s)) (particles s);
     mouse := mouse s |}.

(** The same loop in the arithmetic of the code, where every
    operation rounds to a double. *)
Module Doubles.

Record Particle := {
  x : Js.number; y : Js.number;
  vx : Js.number; vy : Js.number;
  size : Js.number;
  color : string;
  opacity : Js.number;
}.

Record Mouse := { mouse_x : Js.number; mouse_y : Js.number; radius : Js.number }.

Record t := {
  width : Js.number;
  height : Js.number;
  particles : list Particle;
  mouse : Mouse;
}.

(** What the engine returns to the loop body for a particle in range:
    [Math.cos(angle)] and [Math.sin(angle)], for the [angle] that
    [Math.atan2(dy, dx)] returned.  ECMAScript fixes these functions
    at a few arguments only and leaves them to the engine elsewhere. *)
Record Trig := { cos_angle : Js.number; sin_angle : Js.number }.

(** The position of a particle once its velocity has been added. *)
Definition drifted_x (p : Particle) : Js.number := Double.add (x p) (vx p).
Definition drifted_y (p : Particle) : Js.number := Double.add (y p) (vy p).

(** [distance] as the loop body computes it, from the drifted
    position to the mouse. *)
Definition distance (m : Mouse) (p : Particle) : Js.number :=
  let dx := Double.sub (mouse_x m) (drifted_x p) in
  let dy := Double.sub (mouse_y m) (drifted_y p) in
  Double.sqrt (Double.add (Double.mul dx dx) (Double.mul dy dy)).

(** The body of the [forEach] of [animate], up to the drawing. *)
Definition move (w h : Js.number) (m : Mouse) (trig : Trig) (p : Particle) : Particle :=
  let x1 := Double.add (x p) (vx p) in
  let y1 := Double.add (y p) (vy p) in
  let vx1 := if Js.lt x1 (num 0) || Js.gt x1 w
             then Double.mul (vx p) (num (-1)) else vx p in
  let vy1 := if Js.lt y1 (num 0) || Js.gt y1 h
             then Double.mul (vy p) (num (-1)) else vy p in
  let dx := Double.sub (mouse_x m) x1 in
  let dy := Double.sub (mouse_y m) y1 in
  let distance := Double.sqrt (Double.add (Double.mul dx dx) (Double.mul dy dy)) in
  if Js.lt distance (radius m) then
    let force := Double.div (Double.sub (radius m) distance) (radius m) in
    {| x := Double.sub x1 (Double.mul (Double.mul (cos_angle trig) force) (num 2));
       y := Double.sub y1 (Double.mul (Double.mul (sin_angle trig) force) (num 2));
       vx := vx1; vy := vy1;
       size := size p; color := color p; opacity := opacity p |}
  else
    {| x := x1; y := y1; vx := vx1; vy := vy1;
       size := size p; color := color p; opacity := opacity p |}.

(** One frame; [trig i] is what the engine returns for particle [i]. *)
Definition animate (trig : nat -> Trig) (s : t) : t :=
  {| width := width s; height := height s;
     particles := imap (fun i => move (width s) (height s) (mouse s) (trig i))
                       (particles s);
     mouse := mouse s |}.

(** [this.mouse] as the constructor sets it. *)
Definition initial_mouse : Mouse :=
  {| mouse_x := num 0; mouse_y := num 0; radius := num 100 |}.

(** The [mousemove] listener and [resize]. *)
Definition onMouseMove (clientX clientY : Js.number) (s : t) : t :=
  {| width := width s; height := height s; particles := particles s;
     mouse := {| mouse_x := clientX; mouse_y := clientY; radius := radius (mouse s) |} |}.

Definition resize (innerWidth innerHeight : Js.number) (s : t) : t :=
  {| width := innerWidth; height := innerHeight;
     particles := particles s; mouse := mouse s |}.

End Doubles.

End ParticlesBackground.

(** ** ProjectsManager *)

Module ProjectsManager.

(** A filter button with its [data-filter] attribute, and a project
    card with its [data-category] attribute and [style.display]. *)
Record FilterButton := {
  data_filter : option string;
  button_classes : gset string;
  aria_selected : string;
}.

Record Card := { data_category : option string; display : string }.

Record t := {
  filterButtons : list FilterButton;
  projectCards : list Card;
  activeFilter : option string;
}.

Definition setActiveFilter (filter : option string) (s : t) : t :=
  {| filterButtons :=
       map (fun b =>
              let isActive := bool_decide (data_filter b = filter) in
              {| data_filter := data_filter b;
                 button_classes := Dom.toggle "active" isActive (button_classes b);
                 aria_selected := if isActive then "true" else "false" |})
           (filterButtons s);
     projectCards := projectCards s;
     activeFilter := filter |}.

(** [filterProjects]: the [display] of every card.  (The fade-in of
    the cards shown, played over the next two animation frames, only
    sets their opacity, transform and transition.) *)
Definition filterProjects (filter : option string) (s : t) : t :=
  {| filterButtons := filterButtons s;
     projectCards :=
       map (fun c =>
              let shouldShow := bool_decide (filter = Some "all")
                                || bool_decide (data_category c = filter) in
              {| data_category := data_category c;
                 display := if shouldShow then "block" else "none" |})
           (projectCards s);
     activeFilter := activeFilter s |}.

(** A click on the button at index [i]. *)
Definition onFilterClick (i : nat) (s : t) : t :=
  match filterButtons s !! i with
  | Some b => filterProjects (data_filter b) (setActiveFilter (data_filter b) s)
  | None => s
  end.

Definition init (s : t) : t := filterProjects (Some "all") s.

End ProjectsManager.

(** ** Utils: throttle and debounce *)

Module Throttle.

Section Throttle.

Variable Args : Type.

(** The [inThrottle] flag of one throttled function, and the argument
    lists [func] has been applied to so far. *)
Record t := { inThrottle : bool; executed : list Args }.

(** A call of the throttled function, or the expiry of the timer
    that [setTimeout(() => inThrottle = false, limit)] armed. *)
Inductive event := Call (args : Args) | TimerFired.

Definition step (e : event) (s : t) : t :=
  match e with
  | Call args =>
      if inThrottle s then s
      else {| inThrottle := true; executed := executed s ++ [args] |}
  | TimerFired => {| inThrottle := false; executed := executed s |}
  end.

Definition run (es : list event) (s : t) : t := foldl (fun s e => step e s) s es.

(** The number of timer expiries among the events. *)
Fixpoint timers (es : list event) : nat :=
  match es with
  | [] => 0
  | TimerFired :: es => S (timers es)
  | Call _ :: es => timers es
  end.

End Throttle.

Arguments inThrottle {Args} _.
Arguments executed {Args} _.
Arguments Call {Args} _.
Arguments TimerFired {Args}.
Arguments step {Args} _ _.
Arguments run {Args} _ _.
Arguments timers {Args} _.

End Throttle.

Module Debounce.

Section Debounce.

Variable Args : Type.

(** The timer armed by the last call, with the arguments its callback
    [later] will pass on, and the argument lists [func] has been
    applied to so far. *)
Record t := { timeout : option Args; executed : list Args }.

Inductive event := Call (args : Args) | TimerFired.

(** A call clears the pending timer and arms a new one; the expiry of
    the armed timer runs [later]. *)
Definition step (e : event) (s : t) : t :=
  match e with
  | Call args => {| timeout := Some args; executed := executed s |}
  | TimerFired =>
      match timeout s with
      | Some args => {| timeout := None; executed := executed s ++ [args] |}
      | None => s
      end
  end.

Definition run (es : list event) (s : t) : t := foldl (fun s e => step e s) s es.

Fixpoint timers (es : list event) : nat :=
  match es with
  | [] => 0
  | TimerFired :: es => S (timers es)
  | Call _ :: es => timers es
  end.

End Debounce.

Arguments timeout {Args} _.
Arguments executed {Args} _.
Arguments Call {Args} _.
Arguments TimerFired {Args}.
Arguments step {Args} _ _.
Arguments run {Args} _ _.
Arguments timers {Args} _.

End Debounce.

(** ** Vocabulary of the further properties *)

(** The class of the menu, [aria-expanded] of its toggle and the scroll
    lock of the body all reflect [STATE.menuOpen]. *)
Definition menu_consistent (s : NavigationManager.t) : Prop :=
  ("active" ∈ NavigationManager.navMenu s <-> NavigationManager.menuOpen s = true)
  /\ NavigationManager.aria_expanded s
     = (if NavigationManager.menuOpen s then "true" else "false")
  /\ NavigationManager.body_overflow s
     = (if NavigationManager.menuOpen s then "hidden" else "").

(** Exactly the navigation links that point to section [sid] are
    active. *)
Definition links_point_to (sid : string) (s : NavigationManager.t) : Prop :=
  forall l, l ∈ NavigationManager.navLinks s ->
            ("active" ∈ NavigationManager.link_classes l
             <-> NavigationManager.href l = "#" +:+ sid).

(** The scroll position [scrollY + 100] lies inside the section. *)
Definition section_contains (scrollY : Js.number) (sec : NavigationManager.Section_) : Prop :=
  Js.ge (Js.add scrollY (num 100)) (NavigationManager.offsetTop sec) = true
  /\ Js.lt (Js.add scrollY (num 100))
           (Js.add (NavigationManager.offsetTop sec) (NavigationManager.sectionHeight sec))
     = true.


(** ** Further functions of [Math] *)

Module JsMath.

(** [Math.floor]. *)
Definition floor (a : Js.number) : Js.number :=
  match a with
  | Js.Fin x => Js.Fin (inject_Z (Qfloor x))
  | _ => a
  end.

(** [Math.min(a, b)]: [NaN] when either is [NaN]. *)
Definition min (a b : Js.number) : Js.number :=
  match a, b with
  | Js.NaN, _ | _, Js.NaN => Js.NaN
  | _, _ => if Js.le a b then a else b
  end.


(** [isNaN]. *)
Definition isNaN (a : Js.number) : bool :=
  match a with Js.NaN => true | _ => false end.

End JsMath.

(** ** AnimationManager: the counters *)

Module Counter.

(** The variable [current] of [animateCounter], the number last
    written to [counter.textContent], and whether a call of
    [updateCounter] is waiting for the next animation frame. *)
Record t := {
  current : Js.number;
  textContent : Js.number;
  frame_requested : bool;
}.

(** [updateCounter], for [target] and [increment = target / 200]. *)
Definition updateCounter (target increment : Js.number) (s : t) : t :=
  if Js.lt (current s) target then
    let c := Js.add (current s) increment in
    {| current := c; textContent := JsMath.floor c; frame_requested := true |}
  else
    {| current := current s; textContent := target; frame_requested := false |}.

(** [animateCounter(counter)], with [target] the value of
    [parseInt(counter.dataset.count)] and [shown] what the counter
    showed before: [current] starts at 0 and [updateCounter] runs
    once. *)
Definition animateCounter (target shown : Js.number) : t :=
  updateCounter target (Js.div target (num 200))
                {| current := num 0; textContent := shown; frame_requested := false |}.

(** An animation frame: the waiting call, if any, runs. *)
Definition frame (target : Js.number) (s : t) : t :=
  if frame_requested s then updateCounter target (Js.div target (num 200)) s else s.

Definition frames (n : nat) (target : Js.number) (s : t) : t :=
  Nat.iter n (frame target) s.

End Counter.

(** The code units that are white space for a regular expression:
    TAB, LF, VT, FF, CR, the space, the no-break space, U+1680, U+2000
    to U+200A, U+2028, U+2029, U+202F, U+205F, U+3000 and U+FEFF. *)
Definition white_space : list N :=
  [9; 10; 11; 12; 13; 32; 160; 5760;
   8192; 8193; 8194; 8195; 8196; 8197; 8198; 8199; 8200; 8201; 8202;
   8232; 8233; 8239; 8287; 12288; 65279]%N.

(** The characters that are ASCII white space for the DOM: TAB, LF,
    FF, CR and the space. *)
Definition ascii_white_space : list ascii := ["009"; "010"; "012"; "013"; " "]%char.

(** The string holds no ASCII white space. *)
Definition free_of_white_space (s : string) : Prop :=
  Forall (fun c => c ∉ ascii_white_space) (list_ascii_of_string s).

(** An address part matched by [[^\s@]+]: not empty, no white space
    and no [@] (code unit 64). *)
Definition plain_part (s : Js.str) : Prop :=
  s <> [] /\ Forall (fun c => (c ∉ white_space) /\ c <> 64%N) s.

(** How a required field looks once [validateForm] has seen it. *)
Definition validated (validity : string -> ContactFormManager.Validity)
    (before after : ContactFormManager.Field) : Prop :=
  ContactFormManager.value after = ContactFormManager.value before
  /\ ContactFormManager.field_id after = ContactFormManager.field_id before
  /\ if ContactFormManager.required before then
       ("error" ∈ ContactFormManager.field_classes after
        <-> ContactFormManager.valid (validity (ContactFormManager.field_id before)) = false)
     else after = before.



(** ** SimpleAnalytics: the time on the page *)

Module SimpleAnalytics.

(** [timeSpent] in whole seconds, whether the interval is still set,
    and the times written to the console. *)
Record t := { timeSpent : Z; interval_set : bool; console : list Z }.

(** [trackTimeOnPage]: the counter starts at 0 and the interval is set. *)
Definition trackTimeOnPage : t :=
  {| timeSpent := 0; interval_set := true; console := [] |}.

(** The callback of the interval, every 30 seconds while it is set. *)
Definition tick (s : t) : t :=
  if interval_set s then
    let spent := (timeSpent s + 30)%Z in
    if (300 <=? spent)%Z
    then {| timeSpent := spent; interval_set := false; console := console s ++ [spent] |}
    else {| timeSpent := spent; interval_set := true; console := console s |}
  else s.

Definition ticks (n : nat) : t := Nat.iter n tick trackTimeOnPage.

End SimpleAnalytics.

(** ** PortfolioEnhancements: the name of a download *)

Module Download.

(** [s.split('/')]. *)
Fixpoint split (s : string) : list string :=
  match s with
  | EmptyString => [EmptyString]
  | String c rest =>
      if Ascii.eqb c "/" then EmptyString :: split rest
      else match split rest with
           | part :: parts => String c part :: parts
           | [] => [String c EmptyString]
           end
  end.

(** [array.pop()]: the last element, [None] for [undefined]. *)
Definition pop (parts : list string) : option string := last parts.

(** What [initDownloadTracking] logs for a link:
    [link.href.split('/').pop()]. *)
Definition download_name (href : string) : option string := pop (split href).

End Download.

(** ** CursorFollower *)

Module CursorFollower.

(** The style of the cursor element: its width and height in pixels
    and the translation of its [transform]. *)
Record CursorStyle := {
  width : Js.number;
  height : Js.number;
  translate_x : Js.number;
  translate_y : Js.number;
}.

(** [this.pos], [this.target], [this.currentSize], and the style of
    [this.cursor] when there is a cursor element. *)
Record t := {
  pos_x : Js.number; pos_y : Js.number;
  target_x : Js.number; target_y : Js.number;
  currentSize : Js.number;
  cursor : option CursorStyle;
}.

(** One frame of [animate]. *)
Definition animate (s : t) : t :=
  let px := Js.add (pos_x s) (Js.mul (Js.sub (target_x s) (pos_x s)) (num (2 # 10))) in
  let py := Js.add (pos_y s) (Js.mul (Js.sub (target_y s) (pos_y s)) (num (2 # 10))) in
  {| pos_x := px; pos_y := py;
     target_x := target_x s; target_y := target_y s;
     currentSize := currentSize s;
     cursor :=
       match cursor s with
       | Some _ =>
           Some {| width := currentSize s;
                   height := currentSize s;
                   translate_x := Js.sub px (Js.div (currentSize s) (num 2));
                   translate_y := Js.sub py (Js.div (currentSize s) (num 2)) |}
       | None => None
       end |}.

Definition frames (n : nat) (s : t) : t := Nat.iter n animate s.

End CursorFollower.

(** ** Random choices of the animation add-on *)

Module Choice.

(** [array[index]] for a number [index]: the element when the index
    is a whole number within the array, [None] for [undefined]. *)
Definition at_index {A} (l : list A) (index : Js.number) : option A :=
  match index with
  | Js.Fin q =>
      if Qeq_bool q (inject_Z (Qfloor q)) && (0 <=? Qfloor q)%Z
      then l !! Z.to_nat (Qfloor q)
      else None
  | _ => None
  end.

(** [array[Math.floor(Math.random() * array.length)]], with [draw]
    the value [Math.random()] returns. *)
Definition pick {A} (l : list A) (draw : Js.number) : option A :=
  at_index l (JsMath.floor (Js.mul draw (num (inject_Z (Z.of_nat (length l)))))).

Definition reveals : list string := ["fade-up"; "fade-left"; "zoom-in"].
Definition colors : list string := ["#2563eb"; "#7c3aed"; "#60a5fa"].

End Choice.

(** ** CounterAnimation *)

Module CounterAnimation.


End CounterAnimation.

(** ** TypingEffect *)

Module TypingEffect.

(** [this.text], the text of the element, and the index the pending
    timer will type next, if a timer is pending.  The texts are
    sequences of UTF-16 code units: [length] counts them and [charAt]
    returns one of them. *)
Record t := { text : Js.str; textContent : Js.str; timer : option nat }.

(** [text.charAt(index)]: the string of the one code unit at [index],
    the empty string when there is none. *)
Definition charAt (index : nat) (s : Js.str) : Js.str :=
  match s !! index with
  | Some c => [c]
  | None => []
  end.

Definition typeText (index : nat) (s : t) : t :=
  if (index <? length (text s))%nat then
    {| text := text s;
       textContent := textContent s ++ charAt index (text s);
       timer := Some (S index) |}
  else {| text := text s; textContent := textContent s; timer := None |}.

(** [init]: the element is emptied and [typeText(0)] runs. *)
Definition init (original : Js.str) : t :=
  typeText 0 {| text := original; textContent := []; timer := None |}.

(** The expiry of the pending timer, 100 ms after it was set. *)
Definition tick (s : t) : t :=
  match timer s with
  | Some index => typeText index s
  | None => s
  end.

Definition ticks (n : nat) (s : t) : t := Nat.iter n tick s.

End TypingEffect.

(** The particles after [n] frames. *)
Definition particle_frames (n : nat) (s : ParticlesBackground.t) : ParticlesBackground.t :=
  Nat.iter n ParticlesBackground.animate s.

(** The string holds no slash. *)
Definition no_slash (s : string) : Prop :=
  Forall (fun c => c <> "/"%char) (list_ascii_of_string s).

(** [parts.join('/')] for the parts after the first: each one
    preceded by a slash. *)
Fixpoint slash_joined (parts : list string) : string :=
  match parts with
  | [] => EmptyString
  | part :: parts => "/" +:+ part +:+ slash_joined parts
  end.

(** The two numbers are the same value. *)
Definition same_number (a b : Js.number) : Prop :=
  match a, b with
  | Js.Fin x, Js.Fin y => (x == y)%Q
  | Js.PosInf, Js.PosInf | Js.NegInf, Js.NegInf | Js.NaN, Js.NaN => True
  | _, _ => False
  end.

(** The number is a double: rounding leaves it as it is. *)
Definition is_double (a : Js.number) : Prop := same_number (Double.of_exact a) a.

(** The opposite of a number, [a * -1] in exact arithmetic. *)
Definition opposite (a : Js.number) : Js.number := Js.mul a (num (-1)).

(** The two numbers are the same or opposite. *)
Definition same_magnitude (a b : Js.number) : Prop :=
  same_number a b \/ same_number a (opposite b).

(** The particles after one frame for each element of [trigs], which
    holds what the engine returns in that frame. *)
Definition double_frames (trigs : list (nat -> ParticlesBackground.Doubles.Trig))
    (s : ParticlesBackground.Doubles.t) : ParticlesBackground.Doubles.t :=
  foldl (fun s trig => ParticlesBackground.Doubles.animate trig s) s trigs.



(** [b] lies between [a] and [c], whichever is the larger. *)
Definition between (a b c : Q) : Prop :=
  ((a <= c)%Q -> (a <= b)%Q /\ (b <= c)%Q) /\ ((c <= a)%Q -> (c <= b)%Q /\ (b <= a)%Q).


(** ** Vocabulary of the properties *)

(** Every character of the string is a digit. *)
Definition all_digits (s : string) : Prop :=
  Forall (fun c => Utils.is_digit c = true) (list_ascii_of_string s).

(** [s] contains ten consecutive digits somewhere. *)
Definition has_ten_digit_run (s : string) : Prop :=
  exists before run after,
    s = before +:+ run +:+ after /\ String.length run = 10%nat /\ all_digits run.

(** How the promise of the contact form settles when [Math.random()]
    returns [draw]. *)
Definition contact_outcome (data : gmap string string) (draw : Js.number)
  : Promise.settled :=
  Promise.outcome (ContactFormManager.submitForm data draw).

(** How the promise of the newsletter form settles when [Math.random()]
    would return [draw]: the handler never calls it. *)
Definition newsletter_outcome (draw : Js.number) : Promise.settled :=
  Promise.outcome NewsletterManager.simulated_send.

(** A submission is gated by the random draw when some draw makes it
    fail and some draw makes it succeed. *)
Definition gated (settle : Js.number -> Promise.settled) : Prop :=
  (exists draw err, settle draw = Promise.Rejected err)
  /\ (exists draw v, settle draw = Promise.Resolved v).

(** The flag an earlier visit of this page can have left in the local
    storage: none, or one of the two themes (an empty flag reads as
    none). *)
Definition stored_theme_ok (stored : gmap string string) : Prop :=
  stored !! "theme" = None \/ stored !! "theme" = Some ""
  \/ stored !! "theme" = Some "light" \/ stored !! "theme" = Some "dark".

(** The theme is one of the two modes. *)
Definition light_or_dark (th : string) : Prop := th = "light" \/ th = "dark".

(** The stored flag and the body agree with the theme in memory. *)
Definition theme_in_sync (s : ThemeManager.t) : Prop :=
  ThemeManager.localStorage s !! "theme" = Some (ThemeManager.theme s)
  /\ ("dark-mode" ∈ ThemeManager.body_classes s <-> ThemeManager.theme s = "dark").

(** * Properties *)

Section FormatPhone.

Import Utils.

Lemma two_digits_spec s g rest :
  two_digits s = Some (g, rest) ->
  s = g +:+ rest /\ String.length g = 2%nat /\ all_digits g.
Proof.
  destruct s as [|a [|b s']]; simpl; try discriminate.
  destruct (is_digit a) eqn:Ha, (is_digit b) eqn:Hb; simpl; try discriminate.
  intros [= <- <-]. repeat split.
  unfold all_digits; simpl. repeat constructor; assumption.
Qed.

Lemma two_digits_digits a b rest :
  is_digit a = true -> is_digit b = true ->
  two_digits (String a (String b rest)) = Some (String a (String b ""), rest).
Proof. intros Ha Hb. unfold two_digits. rewrite Ha, Hb. reflexivity. Qed.

Lemma string_app_cons c (s t : string) : String c s +:+ t = String c (s +:+ t).
Proof. reflexivity. Qed.

Lemma string_app_nil (t : string) : "" +:+ t = t.
Proof. reflexivity. Qed.

Lemma all_digits_app s t : all_digits s -> all_digits t -> all_digits (s +:+ t).
Proof.
  unfold all_digits. induction s as [|c s IH]; [intros _ Ht; exact Ht|].
  rewrite string_app_cons. simpl. intros Hs Ht.
  inversion Hs; subst. constructor; auto.
Qed.

Lemma string_app_assoc (s t u : string) : (s +:+ t) +:+ u = s +:+ t +:+ u.
Proof.
  induction s as [|c s IH]; [reflexivity|].
  rewrite !string_app_cons. congruence.
Qed.

Lemma string_length_app (s t : string) :
  String.length (s +:+ t) = (String.length s + String.length t)%nat.
Proof.
  induction s as [|c s IH]; [reflexivity|].
  rewrite string_app_cons. simpl. congruence.
Qed.

Lemma match_here_run s groups rest :
  match_here s = Some (groups, rest) -> has_ten_digit_run s.
Proof.
  unfold match_here. intros H.
  destruct (two_digits s) as [[g1 r1]|] eqn:E1; simpl in H; [|discriminate].
  destruct (two_digits r1) as [[g2 r2]|] eqn:E2; simpl in H; [|discriminate].
  destruct (two_digits r2) as [[g3 r3]|] eqn:E3; simpl in H; [|discriminate].
  destruct (two_digits r3) as [[g4 r4]|] eqn:E4; simpl in H; [|discriminate].
  destruct (two_digits r4) as [[g5 r5]|] eqn:E5; simpl in H; [|discriminate].
  apply two_digits_spec in E1 as (-> & L1 & D1).
  apply two_digits_spec in E2 as (-> & L2 & D2).
  apply two_digits_spec in E3 as (-> & L3 & D3).
  apply two_digits_spec in E4 as (-> & L4 & D4).
  apply two_digits_spec in E5 as (-> & L5 & D5).
  exists "", (g1 +:+ g2 +:+ g3 +:+ g4 +:+ g5), r5. repeat split.
  - simpl. rewrite !string_app_assoc. reflexivity.
  - rewrite !string_length_app. lia.
  - repeat apply all_digits_app; assumption.
Qed.

Lemma has_ten_digit_run_cons c s : has_ten_digit_run s -> has_ten_digit_run (String c s).
Proof.
  intros (b & r & a & -> & Hl & Hd). exists (String c b), r, a. auto.
Qed.

Lemma formatPhone_no_run s : ~ has_ten_digit_run s -> formatPhone s = s.
Proof.
  induction s as [|c s IH]; intros Hno.
  - reflexivity.
  - cbn [formatPhone].
    destruct (match_here (String c s)) as [[groups rest]|] eqn:E.
    + exfalso. apply Hno. eapply match_here_run; eassumption.
    + f_equal. apply IH. intros Hrun. apply Hno.
      apply has_ten_digit_run_cons; assumption.
Qed.

(** C10. On a string of exactly ten ASCII digits [formatPhone] returns
    the five consecutive two-digit groups joined by single spaces, and
    a string without any run of ten consecutive digits is returned
    unchanged. *)
Theorem formatPhone_spec :
  (forall d0 d1 d2 d3 d4 d5 d6 d7 d8 d9 : ascii,
      Forall (fun c => is_digit c = true) [d0; d1; d2; d3; d4; d5; d6; d7; d8; d9] ->
      formatPhone (string_of_list_ascii [d0; d1; d2; d3; d4; d5; d6; d7; d8; d9])
      = string_of_list_ascii
          [d0; d1; " "; d2; d3; " "; d4; d5; " "; d6; d7; " "; d8; d9]%char)
  /\ (forall s : string, ~ has_ten_digit_run s -> formatPhone s = s).
Proof.
  split; [|exact formatPhone_no_run].
  intros d0 d1 d2 d3 d4 d5 d6 d7 d8 d9 H.
  repeat match goal with
         | H : Forall _ (_ :: _) |- _ => inversion H; clear H; subst
         end.
  cbn [string_of_list_ascii formatPhone]. unfold match_here.
  repeat (rewrite two_digits_digits by assumption; cbn [mbind option_bind fst snd]).
  reflexivity.
Qed.

End FormatPhone.

(** Membership in a class list built by [classList] operations. *)
Ltac class_list :=
  unfold Dom.toggle, Dom.add, Dom.remove;
  repeat (rewrite elem_of_union || rewrite elem_of_difference
          || rewrite elem_of_singleton).

(** ** Analytics: the event list *)

Section Analytics.

Import AnalyticsManager.

Lemma logEvent_events new_id now nm dt (s : t) :
  let e := {| id := new_id; name := nm; data := dt; timestamp := now |} in
  events (logEvent new_id now nm dt s)
  = drop (length (events s ++ [e]) - 100) (events s ++ [e]).
Proof.
  intros e. unfold logEvent. cbn [events]. fold e.
  destruct (Nat.ltb_spec 100 (length (events s ++ [e]))) as [Hgt|Hle].
  - reflexivity.
  - replace (length (events s ++ [e]) - 100)%nat with 0%nat by lia. reflexivity.
Qed.

(** Logging a whole list of events, oldest first. *)
Lemma log_all_events (entries : list (string * string * string * list (string * string))) :
  events (log_all entries init)
  = drop (length entries - 100) (map event_of entries).
Proof.
  induction entries as [|[[[i n] nm] dt] entries IH] using rev_ind.
  - reflexivity.
  - unfold log_all in *. rewrite foldl_app. cbn [foldl].
    rewrite logEvent_events, IH, map_app. cbn [map event_of].
    set (evs := map event_of entries).
    assert (Hlen : length evs = length entries) by (unfold evs; apply length_map).
    rewrite !length_app, length_drop, Hlen. cbn [length].
    rewrite <- (drop_app_le evs) by lia.
    rewrite drop_drop. f_equal. lia.
Qed.

(** C9. After every [logEvent] call the event list holds at most 100
    events, and they are the most recently logged ones: the list is the
    old list with the new event at its end, cut at the front.  From
    the empty list of the constructor, the list is at all times the
    last 100 of the events logged. *)
Theorem logEvent_keeps_most_recent :
  forall (new_id now nm : string) (dt : list (string * string)) (s : t),
    let e := {| id := new_id; name := nm; data := dt; timestamp := now |} in
    let s' := logEvent new_id now nm dt s in
    (length (events s') <= 100)%nat
    /\ (exists dropped, events s ++ [e] = dropped ++ events s')
    /\ last (events s') = Some e
    /\ forall entries,
         events (log_all entries init)
         = slice_last (Nat.min 100 (length entries)) (map event_of entries).
Proof.
  intros new_id now nm dt s e s'. unfold s'.
  rewrite logEvent_events. fold e.
  set (l := events s ++ [e]).
  assert (Hl : length l = S (length (events s))).
  { unfold l. rewrite length_app. simpl. lia. }
  repeat split.
  - rewrite length_drop. lia.
  - exists (take (length l - 100) l). symmetry. apply take_drop.
  - subst l. rewrite drop_app_le by (rewrite length_app; simpl; lia).
    apply last_snoc.
  - intros entries. rewrite log_all_events. unfold slice_last.
    rewrite length_map. f_equal. lia.
Qed.

End Analytics.

(** ** Navigation: the navbar and the progress bar *)

Section Navigation.

Import NavigationManager.

Lemma gt_200_gt_100 (c : Js.number) :
  Js.gt c (num 200) = true -> Js.gt c (num 100) = true.
Proof.
  destruct c as [q| | |]; cbn; try congruence.
  rewrite !negb_true_iff. intros H.
  destruct (Qle_bool q 100) eqn:E; [|reflexivity].
  apply Qle_bool_iff in E.
  assert (Hn : ~ (q <= 200)%Q) by (rewrite <- Qle_bool_iff; congruence).
  exfalso. apply Hn. lra.
Qed.

Lemma le_100_not_gt (c : Js.number) :
  Js.le c (num 100) = true -> Js.gt c (num 100) = false.
Proof.
  destruct c as [q| | |]; cbn; try congruence.
  intros ->. reflexivity.
Qed.

(** C7. After [updateNavbar] the navbar carries [hidden] exactly when
    the scroll offset exceeds 200 and exceeds the scroll position
    recorded before; it is never hidden when the offset is at most 100;
    and it carries [scrolled] exactly when the offset exceeds 100. *)
Theorem updateNavbar_classes :
  forall (currentScroll : Js.number) (s : t),
    let s' := updateNavbar currentScroll s in
    ("hidden" ∈ navbar s' <->
       Js.gt currentScroll (num 200) = true
       /\ Js.gt currentScroll (scrollPosition s) = true)
    /\ (Js.le currentScroll (num 100) = true -> "hidden" ∉ navbar s')
    /\ ("scrolled" ∈ navbar s' <-> Js.gt currentScroll (num 100) = true)
    /\ scrollPosition s' = currentScroll.
Proof.
  intros c s s'. unfold s', updateNavbar. cbn [navbar scrollPosition].
  pose proof (gt_200_gt_100 c) as H21.
  pose proof (le_100_not_gt c) as Hle.
  destruct (Js.gt c (num 100)) eqn:E100;
    destruct (Js.gt c (scrollPosition s)) eqn:Eprev;
    destruct (Js.gt c (num 200)) eqn:E200; cbn [andb];
    class_list; intuition (congruence || discriminate).
Qed.

Lemma scrolled_in_range (d : Document) (h t : Q) :
  scrollable_height d = num h -> winScroll d = num t ->
  (0 < h)%Q -> (0 <= t)%Q -> (t <= h)%Q ->
  exists p, scrolled d = num p /\ (0 <= p)%Q /\ (p <= 100)%Q.
Proof.
  intros Hh Ht Hpos H0 Hle. unfold scrolled. rewrite Hh, Ht.
  cbn [Js.div Js.mul]. unfold Js.sgn.
  destruct (0 ?= h)%Q eqn:E.
  - apply Qeq_alt in E. lra.
  - eexists; split; [reflexivity|].
    assert (H1 : (0 <= t / h)%Q) by (apply Qle_shift_div_l; lra).
    assert (H2 : (t / h <= 1)%Q) by (apply Qle_shift_div_r; lra).
    split; nra.
  - apply Qgt_alt in E. lra.
Qed.


Lemma set_width_in_range (p : Q) (old : Js.number) :
  (0 <= p)%Q -> set_width (num p) old = num p.
Proof.
  intros Hp. unfold set_width.
  replace (Qle_bool 0 p) with true by (symmetry; apply Qle_bool_iff; exact Hp).
  reflexivity.
Qed.







End Navigation.

(** ** The simulated submissions *)

Section Submissions.

Import ContactFormManager.

Lemma validateForm_values validity (fs : list Field) :
  map value (validateForm validity fs).1 = map value fs.
Proof.
  induction fs as [|f fs IH]; [reflexivity|].
  cbn [validateForm]. destruct (validateForm validity fs) as [rest ok].
  cbn [fst] in IH.
  destruct (required f); cbn [fst map]; [|congruence].
  unfold validateField. destruct (valid (validity (field_id f))); cbn [fst map value];
    rewrite IH; reflexivity.
Qed.

Lemma validateForm_defaults validity (fs : list Field) :
  map defaultValue (validateForm validity fs).1 = map defaultValue fs.
Proof.
  induction fs as [|f fs IH]; [reflexivity|].
  cbn [validateForm]. destruct (validateForm validity fs) as [rest ok].
  cbn [fst] in IH.
  destruct (required f); cbn [fst map]; [|congruence].
  unfold validateField.
  destruct (valid (validity (field_id f))); cbn [fst map defaultValue];
    rewrite IH; reflexivity.
Qed.

(** C1. For a submission of the contact form that passes validation,
    the promise of [submitForm] settles after the 1500 ms delay, and it
    resolves exactly when the draw exceeds 0.1; otherwise it is
    rejected with 'Network error', the error notification is shown and
    the values of the fields are left as they were.  (On success the
    fields go back to their default values and nothing is notified.) *)
Theorem contact_submit_simulated :
  forall (validity : string -> Validity) (draw : Js.number) (s : t),
    formSubmitting s = false ->
    (validateForm validity (fields s)).2 = true ->
    let awaiting := handleSubmit_begin validity s in
    let p := submitForm (formData awaiting.1) draw in
    let s' := handleSubmit validity draw s in
    awaiting.2 = true
    /\ Promise.delay p = 1500%nat
    /\ (Promise.outcome p = Promise.Resolved Promise.Success
        <-> Js.gt draw (num (1 # 10)) = true)
    /\ (Js.gt draw (num (1 # 10)) = false ->
          Promise.outcome p = Promise.Rejected "Network error"
          /\ notifications s'
             = notifications s
               ++ [{| Dom.message := "Une erreur est survenue. Veuillez réessayer.";
                      Dom.kind := "error" |}]
          /\ map value (fields s') = map value (fields s))
    /\ (Js.gt draw (num (1 # 10)) = true ->
          notifications s' = notifications s
          /\ map value (fields s') = map defaultValue (fields s)).
Proof.
  intros validity draw s Hidle Hvalid awaiting p s'.
  subst awaiting p s'. unfold handleSubmit, handleSubmit_begin.
  rewrite Hidle.
  pose proof (validateForm_values validity (fields s)) as Hvals.
  pose proof (validateForm_defaults validity (fields s)) as Hdefs.
  destruct (validateForm validity (fields s)) as [fs ok] eqn:Hvf.
  cbn [fst snd] in *. subst ok. cbn [fst snd].
  unfold handleSubmit_resume, submitForm. cbn [Promise.outcome Promise.delay].
  split; [reflexivity|]. split; [reflexivity|].
  destruct (Js.gt draw (num (1 # 10))) eqn:Hdraw.
  - split; [tauto|]. split; [discriminate|]. intros _.
    cbn [notifications fields]. split; [reflexivity|].
    rewrite <- Hdefs, map_map. reflexivity.
  - split; [split; discriminate|]. split; [|discriminate]. intros _.
    cbn [notifications fields showNotification]. auto.
Qed.

(** A form with one required field, filled in and valid. *)
Lemma contact_submit_simulated_witness :
  let f := {| field_id := "email"; field_name := Some "email"; field_type := "email";
              required := true;
              value := "a@b.fr"; defaultValue := ""; field_classes := ∅;
              errorElement := None |} in
  let s := {| fields := [f]; formSubmitting := false;
              submitBtn := {| disabled := false; btn_text := None;
                              btn_loader_display := None |};
              successMessage := None; notifications := []; console_errors := [] |} in
  let ok := fun _ : string => {| valid := true; valueMissing := false;
                                 typeMismatch := false |} in
  Promise.outcome (submitForm (formData (handleSubmit_begin ok s).1) (num (5 # 100)))
  = Promise.Rejected "Network error"
  /\ map value (fields (handleSubmit ok (num (5 # 100)) s)) = ["a@b.fr"].
Proof.
  intros f s ok.
  destruct (contact_submit_simulated ok (num (5 # 100)) s eq_refl eq_refl)
    as (_ & _ & _ & Hrej & _).
  destruct (Hrej eq_refl) as (Hout & _ & Hvals).
  split; [exact Hout | exact Hvals].
Defined.

(** C2, as the specification states it: both forms are gated. *)
Lemma newsletter_is_not_gated :
  ~ ((forall data, gated (contact_outcome data)) /\ gated newsletter_outcome).
Proof.
  intros [_ [(draw & err & Hfail) _]].
  unfold newsletter_outcome, NewsletterManager.simulated_send in Hfail.
  cbn in Hfail. discriminate.
Qed.

(** C2, amended.  The contact submission is gated by the random draw:
    some draw makes it fail and some draw makes it succeed.  The
    newsletter submission draws nothing: its promise always resolves,
    and with a valid email the handler shows the success message,
    resets the form and enables the button again; with an invalid one
    it only shows the validation error. *)
Theorem only_contact_is_gated :
  (forall data, gated (contact_outcome data))
  /\ (forall draw, newsletter_outcome draw = Promise.Resolved Promise.Undefined)
  /\ (forall s : NewsletterManager.t,
        NewsletterManager.validateEmail (NewsletterManager.email s) = true ->
        let s' := NewsletterManager.handleSubmit s in
        NewsletterManager.notifications s'
        = NewsletterManager.notifications s
          ++ [{| Dom.message := "Merci pour votre inscription !";
                 Dom.kind := "success" |}]
        /\ NewsletterManager.email s' = NewsletterManager.email_default s
        /\ NewsletterManager.button_disabled s' = false)
  /\ (forall s : NewsletterManager.t,
        NewsletterManager.validateEmail (NewsletterManager.email s) = false ->
        let s' := NewsletterManager.handleSubmit s in
        NewsletterManager.notifications s'
        = NewsletterManager.notifications s
          ++ [{| Dom.message := "Veuillez entrer un email valide";
                 Dom.kind := "error" |}]
        /\ NewsletterManager.email s' = NewsletterManager.email s).
Proof.
  split; [|split; [|split]].
  - intros data. split.
    + exists (num 0), "Network error". reflexivity.
    + exists (num (1 # 2)), Promise.Success. reflexivity.
  - intros draw. reflexivity.
  - intros s Hvalid.
    unfold NewsletterManager.handleSubmit, NewsletterManager.handleSubmit_begin.
    rewrite Hvalid. repeat split.
  - intros s Hinvalid.
    unfold NewsletterManager.handleSubmit, NewsletterManager.handleSubmit_begin.
    rewrite Hinvalid. repeat split.
Qed.

(** A valid and an invalid address for the newsletter form. *)
Lemma only_contact_is_gated_witness :
  let s := {| NewsletterManager.email := Js.utf16 "ada@example.org";
              NewsletterManager.email_default := [];
              NewsletterManager.button_disabled := false;
              NewsletterManager.button_html := NewsletterManager.PaperPlane;
              NewsletterManager.notifications := [] |} in
  NewsletterManager.validateEmail (Js.utf16 "ada@example.org") = true
  /\ NewsletterManager.validateEmail (Js.utf16 "ada@example") = false
  /\ NewsletterManager.email (NewsletterManager.handleSubmit s) = [].
Proof.
  intros s. split; [reflexivity|]. split; [reflexivity|].
  destruct only_contact_is_gated as (_ & _ & Hok & _).
  exact (proj1 (proj2 (Hok s eq_refl))).
Defined.

End Submissions.

(** ** The theme *)

Section Theme.

Import ThemeManager.

Lemma setTheme_in_sync (th : string) (s : t) :
  theme (setTheme th s) = th /\ theme_in_sync (setTheme th s).
Proof.
  unfold theme_in_sync, setTheme. cbn [theme localStorage body_classes].
  split; [reflexivity|]. split.
  - apply lookup_insert_eq.
  - destruct (bool_decide (th = "dark")) eqn:E.
    + apply bool_decide_eq_true in E. class_list. tauto.
    + apply bool_decide_eq_false in E. class_list. tauto.
Qed.

Lemma toggleTheme_theme (s : t) :
  theme (toggleTheme s) = if bool_decide (theme s = "light") then "dark" else "light".
Proof. reflexivity. Qed.

Lemma toggleTheme_in_sync (s : t) : theme_in_sync (toggleTheme s).
Proof.
  unfold toggleTheme.
  set (th := if bool_decide (theme s = "light") then "dark" else "light").
  destruct (setTheme_in_sync th s) as [_ H]. exact H.
Qed.

Lemma toggleTheme_light_or_dark (s : t) : light_or_dark (theme (toggleTheme s)).
Proof.
  rewrite toggleTheme_theme. unfold light_or_dark.
  destruct (bool_decide (theme s = "light")); auto.
Qed.

Lemma toggleTheme_twice (s : t) :
  light_or_dark (theme s) -> theme (toggleTheme (toggleTheme s)) = theme s.
Proof.
  intros [H|H]; rewrite !toggleTheme_theme, H; reflexivity.
Qed.

Lemma load_light_or_dark stored prefers body meta :
  stored_theme_ok stored -> light_or_dark (theme (load stored prefers body meta)).
Proof.
  unfold load, init, initial_theme, light_or_dark. cbn [theme setTheme].
  intros [H|[H|[H|H]]]; rewrite H; cbn [Js.truthy_string];
    destruct prefers; auto.
Qed.

Lemma step_invariant (e : event) (s : t) :
  light_or_dark (theme s) /\ theme_in_sync s ->
  light_or_dark (theme (step e s)) /\ theme_in_sync (step e s).
Proof.
  intros [Hld Hsync]. destruct e as [|m]; cbn [step].
  - split; [apply toggleTheme_light_or_dark | apply toggleTheme_in_sync].
  - unfold onSystemPreferenceChange.
    destruct (getItem_truthy "theme" (localStorage s)); [tauto|].
    destruct (setTheme_in_sync (if m then "dark" else "light") s) as [Hth Hs].
    split; [|exact Hs]. rewrite Hth. unfold light_or_dark. destruct m; auto.
Qed.

Lemma run_invariant (es : list event) (s : t) :
  light_or_dark (theme s) /\ theme_in_sync s ->
  light_or_dark (theme (run es s)) /\ theme_in_sync (run es s).
Proof.
  revert s. induction es as [|e es IH]; intros s H; [exact H|].
  cbn. apply IH. apply step_invariant. exact H.
Qed.

(** C4, as the specification states it: a page that finds an unknown
    flag in the local storage starts with a theme that is neither
    light nor dark, and toggling twice does not come back to it. *)
Lemma theme_is_not_always_light_or_dark :
  let s := load {["theme" := "blue"]} false ∅ None in
  theme s = "blue"
  /\ ~ light_or_dark (theme s)
  /\ theme (toggleTheme (toggleTheme s)) = "dark".
Proof.
  cbv zeta. split; [reflexivity|]. split; [|reflexivity].
  intros [H|H]; vm_compute in H; discriminate.
Qed.

(** C4, amended.  After every [setTheme] and every [toggleTheme] call
    the stored flag equals the theme in memory, and the body carries
    [dark-mode] exactly when the theme is 'dark'.  When the flag found
    in the local storage at load time is absent, empty, 'light' or
    'dark', the theme is at all times 'light' or 'dark', and toggling
    twice restores it. *)
Theorem theme_consistency :
  (forall (th : string) (s : t),
      theme (setTheme th s) = th /\ theme_in_sync (setTheme th s))
  /\ (forall s : t, theme_in_sync (toggleTheme s))
  /\ (forall (stored : gmap string string) (prefers : bool) (body : gset string)
             (meta : option string) (es : list event),
        stored_theme_ok stored ->
        let s := run es (load stored prefers body meta) in
        light_or_dark (theme s)
        /\ theme_in_sync s
        /\ theme (toggleTheme (toggleTheme s)) = theme s).
Proof.
  split; [exact setTheme_in_sync|]. split; [exact toggleTheme_in_sync|].
  intros stored prefers body meta es Hok s.
  assert (H : light_or_dark (theme s) /\ theme_in_sync s).
  { apply run_invariant. split.
    - apply load_light_or_dark, Hok.
    - apply setTheme_in_sync. }
  destruct H as [Hld Hsync]. repeat split; try apply Hsync; try exact Hld.
  apply toggleTheme_twice, Hld.
Qed.

(** A first visit with a dark system preference, then two toggles and
    a change of the system preference. *)
Lemma theme_consistency_witness :
  let s := run [Toggle; SystemPreference false; Toggle] (load ∅ true ∅ (Some "#ffffff")) in
  stored_theme_ok ∅
  /\ light_or_dark (theme s)
  /\ theme (toggleTheme (toggleTheme s)) = theme s.
Proof.
  cbv zeta.
  assert (Hok : stored_theme_ok ∅) by (left; reflexivity).
  split; [exact Hok|].
  destruct theme_consistency as (_ & _ & H).
  destruct (H ∅ true ∅ (Some "#ffffff") [Toggle; SystemPreference false; Toggle] Hok)
    as (Hld & _ & Hinv).
  split; [exact Hld | exact Hinv].
Defined.

End Theme.

(** ** Persistence *)

Section Persistence.

Lemma setTheme_storage (th : string) (s : ThemeManager.t) :
  ThemeManager.localStorage (ThemeManager.setTheme th s)
  = <["theme" := th]> (ThemeManager.localStorage s).
Proof. reflexivity. Qed.

Lemma theme_step_storage (e : ThemeManager.event) (s : ThemeManager.t) :
  ThemeManager.localStorage (ThemeManager.step e s) = ThemeManager.localStorage s
  \/ exists th,
       ThemeManager.localStorage (ThemeManager.step e s)
       = ThemeManager.localStorage (ThemeManager.setTheme th s).
Proof.
  destruct e as [|m]; cbn [ThemeManager.step].
  - right. eexists. reflexivity.
  - unfold ThemeManager.onSystemPreferenceChange.
    destruct (ThemeManager.getItem_truthy "theme" (ThemeManager.localStorage s)).
    + left. reflexivity.
    + right. eexists. reflexivity.
Qed.

Lemma theme_step_stored (stored : gmap string string) (e : ThemeManager.event)
    (s : ThemeManager.t) :
  ThemeManager.localStorage s = <["theme" := ThemeManager.theme s]> stored ->
  ThemeManager.localStorage (ThemeManager.step e s)
  = <["theme" := ThemeManager.theme (ThemeManager.step e s)]> stored.
Proof.
  intros Hs. destruct e as [|m]; cbn [ThemeManager.step].
  - unfold ThemeManager.toggleTheme, ThemeManager.dispatchEvent.
    cbn [ThemeManager.localStorage ThemeManager.theme ThemeManager.setTheme].
    rewrite Hs. apply insert_insert_eq.
  - unfold ThemeManager.onSystemPreferenceChange.
    destruct (ThemeManager.getItem_truthy "theme" (ThemeManager.localStorage s));
      [exact Hs|].
    cbn [ThemeManager.localStorage ThemeManager.theme ThemeManager.setTheme].
    rewrite Hs. apply insert_insert_eq.
Qed.

(** X23.  The handlers of the theme write one key of the local
    storage and nothing else: whatever the storage held when the page
    was loaded and whatever toggles and changes of the system
    preference follow, the storage is the one found at load time with
    the theme in memory under the key 'theme'; every other key keeps
    the value it had, and no key is removed. *)
Theorem theme_handlers_write_one_key :
  forall (stored : gmap string string) (prefers : bool) (body : gset string)
         (meta : option string) (es : list ThemeManager.event),
    let s := ThemeManager.run es (ThemeManager.load stored prefers body meta) in
    ThemeManager.localStorage s = <["theme" := ThemeManager.theme s]> stored
    /\ (forall key, key <> "theme" -> ThemeManager.localStorage s !! key = stored !! key)
    /\ (forall key, is_Some (stored !! key) -> is_Some (ThemeManager.localStorage s !! key)).
Proof.
  intros stored prefers body meta es.
  assert (H : forall s0,
             ThemeManager.localStorage s0 = <["theme" := ThemeManager.theme s0]> stored ->
             ThemeManager.localStorage (ThemeManager.run es s0)
             = <["theme" := ThemeManager.theme (ThemeManager.run es s0)]> stored).
  { induction es as [|e es IH]; intros s0 Hs0; [exact Hs0|].
    cbn. apply IH. apply theme_step_stored. exact Hs0. }
  specialize (H (ThemeManager.load stored prefers body meta) eq_refl).
  cbv zeta. split; [exact H|]. rewrite H. split.
  - intros key Hkey. apply lookup_insert_ne. congruence.
  - intros key Hkey. destruct (decide (key = "theme")) as [->|Hne].
    + rewrite lookup_insert_eq. eauto.
    + rewrite lookup_insert_ne by congruence. exact Hkey.
Qed.

End Persistence.

(** ** Scroll animations *)

Section ScrollAnimations.

Import AnimationManager.

Lemma visible_not_animate (a : string) : "visible" <> "animate__" +:+ a.
Proof. discriminate. Qed.

Lemma classes_of_alter (f : Element -> Element) (j i : nat) (els : list Element)
    (obs : gset nat) (thr : bool) :
  classes_of {| elements := alter f j els; observed := obs; inThrottle := thr |} i
  = if bool_decide (i = j)
    then match els !! i with Some el => classes (f el) | None => ∅ end
    else match els !! i with Some el => classes el | None => ∅ end.
Proof.
  unfold classes_of. cbn [elements].
  destruct (bool_decide (i = j)) eqn:E.
  - apply bool_decide_eq_true in E. subst j.
    rewrite list_lookup_alter_eq. destruct (els !! i); reflexivity.
  - apply bool_decide_eq_false in E.
    rewrite list_lookup_alter_ne by congruence. reflexivity.
Qed.

Lemma classes_of_insert (el' : Element) (j i : nat) (els : list Element)
    (obs : gset nat) (thr : bool) :
  (j < length els)%nat ->
  classes_of {| elements := <[j := el']> els; observed := obs; inThrottle := thr |} i
  = if bool_decide (i = j) then classes el'
    else match els !! i with Some el => classes el | None => ∅ end.
Proof.
  intros Hj. unfold classes_of. cbn [elements].
  destruct (bool_decide (i = j)) eqn:E.
  - apply bool_decide_eq_true in E. subst j.
    rewrite list_lookup_insert_eq by exact Hj. reflexivity.
  - apply bool_decide_eq_false in E.
    rewrite list_lookup_insert_ne by congruence. reflexivity.
Qed.

Lemma add2_Some (t1 t2 : string) (cl cl' : gset string) :
  Dom.add2 t1 t2 cl = Some cl' -> cl' = Dom.add t2 (Dom.add t1 cl).
Proof. unfold Dom.add2. destruct (_ && _); congruence. Qed.

Lemma animateElement_Some (el el' : Element) :
  animateElement el = Some el' ->
  el' = {| classes := Dom.add ("animate__" +:+ animation_name el)
                              (Dom.add "animate__animated" (classes el));
           data_animate := data_animate el;
           animationend_listeners := animationend_listeners el ++ [animation_name el] |}.
Proof.
  unfold animateElement. intros H.
  destruct (Dom.add2 _ _ _) as [cl|] eqn:E; [|discriminate].
  apply add2_Some in E. subst cl. cbn in H. congruence.
Qed.

Lemma animateElement_visible (el el' : Element) :
  animateElement el = Some el' ->
  ("visible" ∈ classes el' <-> "visible" ∈ classes el).
Proof.
  intros H. apply animateElement_Some in H. subst el'. cbn [classes]. class_list.
  pose proof (visible_not_animate (animation_name el)).
  intuition (congruence || discriminate).
Qed.

Lemma onAnimationEnd_visible (el : Element) (a : string) :
  "visible" ∈ classes (onAnimationEnd el a) <-> "visible" ∈ classes el.
Proof.
  unfold onAnimationEnd, Dom.remove2.
  destruct (_ && _); [|reflexivity].
  unfold set_classes. cbn [classes]. class_list.
  pose proof (visible_not_animate a).
  intuition (congruence || discriminate).
Qed.

Lemma listeners_visible (el : Element) (l : list string) :
  "visible" ∈ classes (foldl onAnimationEnd el l) <-> "visible" ∈ classes el.
Proof.
  revert el. induction l as [|a l IH]; intros el; [reflexivity|].
  cbn [foldl]. rewrite IH. apply onAnimationEnd_visible.
Qed.

Lemma onEntry_visible (s s' : t) (e : Entry) (i : nat) :
  onEntry s e = Some s' ->
  ("visible" ∈ classes_of s' i <-> "visible" ∈ classes_of s i).
Proof.
  unfold onEntry. destruct (isIntersecting e); [|intros [= <-]; reflexivity].
  destruct (elements s !! target e) as [el|] eqn:Hel; [|intros [= <-]; reflexivity].
  destruct (animateElement el) as [el'|] eqn:Ha; [|discriminate].
  cbn. intros [= <-].
  rewrite classes_of_insert by (eapply lookup_lt_Some; exact Hel).
  unfold classes_of. destruct (bool_decide (i = target e)) eqn:E; [|reflexivity].
  apply bool_decide_eq_true in E. subst i. rewrite Hel.
  apply animateElement_visible. exact Ha.
Qed.

Lemma intersection_visible (entries : list Entry) (s : t) (i : nat) :
  "visible" ∈ classes_of (onEntries s entries) i <-> "visible" ∈ classes_of s i.
Proof.
  revert s. induction entries as [|e entries IH]; intros s; [reflexivity|].
  cbn [onEntries]. destruct (onEntry s e) as [s'|] eqn:E; [|reflexivity].
  rewrite IH. apply (onEntry_visible s s' e i E).
Qed.

Lemma animateOnScroll_lookup (vp : Viewport) (els : list Element) (i : nat) :
  animateOnScroll vp els !! i
  = (fun el => if Dom.contains "scroll-animate" (classes el) && in_view vp i
               then set_classes (Dom.add "visible" (classes el)) el
               else el) <$> els !! i.
Proof. unfold animateOnScroll. apply list_lookup_imap. Qed.

(** What [animateOnScroll] does to the class [visible] of element [i]. *)
Lemma animateOnScroll_visible (vp : Viewport) (els : list Element) (i : nat)
    (obs : gset nat) (thr thr' : bool) :
  "visible" ∈ classes_of {| elements := animateOnScroll vp els;
                            observed := obs; inThrottle := thr' |} i
  <-> "visible" ∈ classes_of {| elements := els; observed := obs; inThrottle := thr |} i
      \/ exists el, els !! i = Some el
                    /\ "scroll-animate" ∈ classes el /\ in_view vp i = true.
Proof.
  unfold classes_of. cbn [elements]. rewrite animateOnScroll_lookup.
  destruct (els !! i) as [el|]; cbn [fmap option_fmap option_map].
  - unfold Dom.contains.
    destruct (bool_decide ("scroll-animate" ∈ classes el)) eqn:E;
      destruct (in_view vp i) eqn:V; cbn [andb classes set_classes].
    + apply bool_decide_eq_true in E. class_list. split; [|tauto].
      intros _. right. exists el. auto.
    + split; [tauto|]. intros [H|(el' & _ & _ & H)]; [exact H | discriminate].
    + apply bool_decide_eq_false in E. split; [tauto|].
      intros [H|(el' & [= <-] & H & _)]; [exact H | contradiction].
    + split; [tauto|]. intros [H|(el' & _ & _ & H)]; [exact H | discriminate].
  - split; [tauto|]. intros [H|(el' & H & _)]; [exact H | discriminate].
Qed.

(** The class appears only at a scroll event that the throttle lets
    through, on a [.scroll-animate] element that passes the test. *)
Lemma step_visible (e : event) (s : t) (i : nat) :
  "visible" ∈ classes_of (step e s) i
  <-> "visible" ∈ classes_of s i
      \/ exists vp el, e = Scroll vp /\ inThrottle s = false
                       /\ elements s !! i = Some el
                       /\ "scroll-animate" ∈ classes el /\ in_view vp i = true.
Proof.
  destruct e as [vp| |entries|j]; cbn [step].
  - destruct (inThrottle s) eqn:T.
    + split; [tauto|]. intros [H|(? & ? & _ & H & _)]; [exact H | discriminate].
    + rewrite (animateOnScroll_visible vp (elements s) i (observed s) false true).
      replace {| elements := elements s; observed := observed s; inThrottle := false |}
        with s by (destruct s; cbn in *; congruence).
      split.
      * intros [H|(el & H1 & H2 & H3)]; [tauto|]. right. exists vp, el. auto.
      * intros [H|(vp' & el & [= <-] & _ & H1 & H2 & H3)]; [tauto|].
        right. exists el. auto.
  - unfold classes_of. cbn [elements].
    split; [tauto|]. intros [H|(? & ? & H & _)]; [exact H | discriminate].
  - rewrite intersection_visible.
    split; [tauto|]. intros [H|(? & ? & H & _)]; [exact H | discriminate].
  - rewrite classes_of_alter. unfold classes_of.
    assert (Hsame : "visible" ∈
                      (if bool_decide (i = j)
                       then match elements s !! i with
                            | Some el => classes (foldl onAnimationEnd el
                                                        (animationend_listeners el))
                            | None => ∅
                            end
                       else match elements s !! i with
                            | Some el => classes el
                            | None => ∅
                            end)
                    <-> "visible" ∈ match elements s !! i with
                                    | Some el => classes el
                                    | None => ∅
                                    end).
    { destruct (bool_decide (i = j)); [|reflexivity].
      destruct (elements s !! i); [apply listeners_visible | reflexivity]. }
    rewrite Hsame.
    split; [tauto|]. intros [H|(? & ? & H & _)]; [exact H | discriminate].
Qed.

Lemma run_visible (es : list event) (s : t) (i : nat) :
  "visible" ∈ classes_of s i -> "visible" ∈ classes_of (run es s) i.
Proof.
  revert s. induction es as [|e es IH]; intros s H; [exact H|].
  cbn. apply IH. apply step_visible. left. exact H.
Qed.

(** C5, as the specification states it.  An element below the fold
    when the page loads scrolls into the viewport.  The callback of
    the Intersection Observer, told that it intersects, does not reveal
    it; the scroll listener does; and a scroll event that the throttle
    drops leaves it hidden although it passes the viewport test. *)
Lemma reveal_is_not_driven_by_the_observer :
  let el := {| classes := {["scroll-animate"]}; data_animate := Some "fadeIn";
               animationend_listeners := [] |} in
  let below := {| innerHeight := num 800; clientHeight := num 800;
                  rect := fun _ => {| top := num 2000; bottom := num 2200 |} |} in
  let inside := {| innerHeight := num 800; clientHeight := num 800;
                   rect := fun _ => {| top := num 100; bottom := num 300 |} |} in
  let s := init below [el] in
  Utils.isInViewport (num 800) (num 800) (num 100) (num 300) (num (2 # 10)) = true
  /\ ("visible" ∉ classes_of s 0)
  /\ ("visible" ∉ classes_of
                    (step (Intersection [{| target := 0; isIntersecting := true |}]) s) 0)
  /\ ("visible" ∈ classes_of (step (Scroll inside) s) 0)
  /\ ("visible" ∉ classes_of (run [Scroll below; Scroll inside] s) 0).
Proof.
  cbv zeta. split; [reflexivity|].
  repeat split; apply (bool_decide_unpack _); vm_compute; exact I.
Qed.

(** C5, amended.  The class [visible] is applied to a [.scroll-animate]
    element that passes the viewport test with offset 0.2 when the
    page loads and at every scroll event that the 100 ms throttle lets
    through; it is applied by that scroll listener and by nothing else
    (the callback of the Intersection Observer, which drives the
    [data-animate] classes, never changes it); and once it is applied
    no later event removes it. *)
Theorem scroll_reveal :
  (forall (vp : Viewport) (els : list Element) (i : nat) (el : Element),
      els !! i = Some el -> "scroll-animate" ∈ classes el ->
      Utils.isInViewport (innerHeight vp) (clientHeight vp)
                         (top (rect vp i)) (bottom (rect vp i)) (num (2 # 10)) = true ->
      "visible" ∈ classes_of (init vp els) i)
  /\ (forall (vp : Viewport) (s : t) (i : nat) (el : Element),
        inThrottle s = false ->
        elements s !! i = Some el -> "scroll-animate" ∈ classes el ->
        Utils.isInViewport (innerHeight vp) (clientHeight vp)
                           (top (rect vp i)) (bottom (rect vp i)) (num (2 # 10)) = true ->
        "visible" ∈ classes_of (step (Scroll vp) s) i)
  /\ (forall (e : event) (s : t) (i : nat),
        "visible" ∈ classes_of (step e s) i -> "visible" ∉ classes_of s i ->
        exists vp el,
          e = Scroll vp /\ inThrottle s = false /\ elements s !! i = Some el
          /\ "scroll-animate" ∈ classes el
          /\ Utils.isInViewport (innerHeight vp) (clientHeight vp)
               (top (rect vp i)) (bottom (rect vp i)) (num (2 # 10)) = true)
  /\ (forall (entries : list Entry) (s : t) (i : nat),
        "visible" ∈ classes_of (step (Intersection entries) s) i
        <-> "visible" ∈ classes_of s i)
  /\ (forall (es : list event) (s : t) (i : nat),
        "visible" ∈ classes_of s i -> "visible" ∈ classes_of (run es s) i).
Proof.
  split; [|split; [|split; [|split]]].
  - intros vp els i el Hel Hcls Hview. unfold init.
    apply (animateOnScroll_visible vp els i _ false false).
    right. exists el. auto.
  - intros vp s i el Hthr Hel Hcls Hview.
    apply step_visible. right. exists vp, el. auto.
  - intros e s i Hafter Hbefore.
    apply step_visible in Hafter as [H|H]; [contradiction | exact H].
  - intros entries s i. cbn [step]. apply intersection_visible.
  - exact run_visible.
Qed.

(** The element of the example above, revealed by the scroll listener,
    stays revealed when it scrolls out again and its animation ends. *)
Lemma scroll_reveal_witness :
  let el := {| classes := {["scroll-animate"]}; data_animate := Some "fadeIn";
               animationend_listeners := [] |} in
  let below := {| innerHeight := num 800; clientHeight := num 800;
                  rect := fun _ => {| top := num 2000; bottom := num 2200 |} |} in
  let inside := {| innerHeight := num 800; clientHeight := num 800;
                   rect := fun _ => {| top := num 100; bottom := num 300 |} |} in
  let s := step (Scroll inside) (init below [el]) in
  "visible" ∈ classes_of s 0
  /\ "visible" ∈ classes_of (run [ThrottleTimer; Scroll below; AnimationEnd 0] s) 0.
Proof.
  intros el below inside s.
  destruct scroll_reveal as (_ & Hscroll & _ & _ & Hkeep).
  assert (H : "visible" ∈ classes_of s 0).
  { subst s. apply (Hscroll inside (init below [el]) 0%nat el).
    - reflexivity.
    - vm_compute. reflexivity.
    - apply (bool_decide_unpack _). vm_compute. exact I.
    - reflexivity. }
  split; [exact H | apply Hkeep, H].
Defined.

End ScrollAnimations.

(** ** Lists *)

Section Lists.

Lemma lookup_map {A B} (f : A -> B) (l : list A) (i : nat) :
  map f l !! i = f <$> l !! i.
Proof.
  revert i. induction l as [|a l IH]; intros [|i]; cbn; auto.
Qed.

End Lists.

(** ** Rounding to a double *)

Section Rounding.

Import Double.
Local Open Scope Q_scope.

Lemma two_pow_pos (e : Z) : 0 < 2 ^ e.
Proof. apply Qpower_0_lt. reflexivity. Qed.

Lemma binade_lower (q : Q) : 0 < q -> 2 ^ binade q <= q.
Proof.
  destruct q as [n d]. intros Hq. unfold binade. cbn [Qnum Qden].
  set (a := Z.log2 n). set (b := Z.log2 (Zpos d)).
  destruct (Qle_bool (2 ^ (a - b)) (n # d)) eqn:E; [apply Qle_bool_iff; exact E|].
  assert (Hn : (0 < n)%Z) by (unfold Qlt in Hq; cbn in Hq; lia).
  destruct (Z.log2_spec n Hn) as [Ha _]. fold a in Ha.
  destruct (Z.log2_spec (Zpos d) (Pos2Z.is_pos _)) as [_ Hb]. fold b in Hb.
  assert (Ha0 : (0 <= a)%Z) by apply Z.log2_nonneg.
  assert (Hb0 : (0 <= b)%Z) by apply Z.log2_nonneg.
  replace (a - b - 1)%Z with (a - (b + 1))%Z by lia.
  rewrite Qpower_minus by discriminate.
  rewrite <- !(Zpower_Qpower 2) by lia.
  assert (H1 : inject_Z (2 ^ a) <= inject_Z n) by (rewrite <- Zle_Qle; exact Ha).
  assert (H2 : inject_Z (Zpos d) <= inject_Z (2 ^ (b + 1))).
  { rewrite <- Zle_Qle. replace (b + 1)%Z with (Z.succ b) by lia. lia. }
  assert (H3 : 0 < inject_Z (Zpos d)).
  { change 0 with (inject_Z 0). rewrite <- Zlt_Qlt. lia. }
  assert (H4 : 0 < inject_Z (2 ^ a)).
  { change 0 with (inject_Z 0). rewrite <- Zlt_Qlt. apply Z.pow_pos_nonneg; lia. }
  rewrite (Qmake_Qdiv n d).
  set (A := inject_Z (2 ^ a)) in *. set (N := inject_Z n) in *.
  set (D := inject_Z (Zpos d)) in *. set (B := inject_Z (2 ^ (b + 1))) in *.
  assert (HB : 0 < B) by lra.
  apply Qle_shift_div_r; [exact HB|].
  assert (Hx : N / D * B == N * B / D) by (field; lra).
  rewrite Hx. apply Qle_shift_div_l; [exact H3|].
  nra.
Qed.


Lemma nearest_even_le (q : Q) (N : Z) : q <= inject_Z N -> (nearest_even q <= N)%Z.
Proof.
  intros H. unfold nearest_even.
  pose proof (Qfloor_le q) as Hf.
  assert (Hfn : (Qfloor q <= N)%Z) by (rewrite Zle_Qle; lra).
  assert (Hstep : inject_Z (Qfloor q) < q -> (Qfloor q + 1 <= N)%Z).
  { intros Hlt. assert (Hz : (Qfloor q < N)%Z) by (rewrite Zlt_Qlt; lra). lia. }
  destruct (q - inject_Z (Qfloor q) ?= 1 # 2) eqn:E.
  - apply Qeq_alt in E. destruct (Z.even (Qfloor q)); [exact Hfn|]. apply Hstep. lra.
  - exact Hfn.
  - apply Qgt_alt in E. apply Hstep. lra.
Qed.


(** [round q] does not pass a multiple of the unit in the last place
    of [q]. *)
Lemma round_le_multiple (q : Q) (N : Z) :
  q <= inject_Z N * 2 ^ ulp_exponent q -> round q <= inject_Z N * 2 ^ ulp_exponent q.
Proof.
  intros H. unfold round. pose proof (two_pow_pos (ulp_exponent q)) as Hp.
  destruct (Qeq_bool q 0) eqn:E.
  - apply Qeq_bool_iff in E. lra.
  - apply Qmult_le_compat_r; [|lra].
    rewrite <- Zle_Qle. apply nearest_even_le.
    apply Qle_shift_div_r; [exact Hp | exact H].
Qed.


(** The unit in the last place of a number no larger than [2^(k+53)]
    in magnitude is at most [2^k], for [k] in the range of the
    exponents. *)
Lemma Qabs_pos (q : Q) : ~ q == 0 -> 0 < Qabs q.
Proof.
  intros H0. apply Qabs_case; intros H; lra.
Qed.





Lemma round_nonpos (q : Q) : q <= 0 -> round q <= 0.
Proof.
  intros H. pose proof (round_le_multiple q 0) as H0.
  rewrite Qmult_0_l in H0. exact (H0 H).
Qed.





Lemma binade_upper (q : Q) : 0 < q -> q < 2 ^ (binade q + 1).
Proof.
  destruct q as [n d]. intros Hq. unfold binade. cbn [Qnum Qden].
  set (a := Z.log2 n). set (b := Z.log2 (Zpos d)).
  destruct (Qle_bool (2 ^ (a - b)) (n # d)) eqn:E.
  - assert (Hn : (0 < n)%Z) by (unfold Qlt in Hq; cbn in Hq; lia).
    destruct (Z.log2_spec n Hn) as [_ Ha]. fold a in Ha.
    destruct (Z.log2_spec (Zpos d) (Pos2Z.is_pos _)) as [Hb _]. fold b in Hb.
    assert (Ha0 : (0 <= a)%Z) by apply Z.log2_nonneg.
    assert (Hb0 : (0 <= b)%Z) by apply Z.log2_nonneg.
    replace (a - b + 1)%Z with (a + 1 - b)%Z by lia.
    rewrite Qpower_minus by discriminate.
    rewrite <- !(Zpower_Qpower 2) by lia.
    assert (H1 : inject_Z n < inject_Z (2 ^ (a + 1))).
    { rewrite <- Zlt_Qlt. replace (a + 1)%Z with (Z.succ a) by lia. exact Ha. }
    assert (H2 : inject_Z (2 ^ b) <= inject_Z (Zpos d)) by (rewrite <- Zle_Qle; exact Hb).
    assert (H3 : 0 < inject_Z (2 ^ b)).
    { change 0 with (inject_Z 0). rewrite <- Zlt_Qlt. apply Z.pow_pos_nonneg; lia. }
    assert (H4 : 0 < inject_Z n) by (change 0 with (inject_Z 0); rewrite <- Zlt_Qlt; lia).
    rewrite (Qmake_Qdiv n d).
    set (A := inject_Z (2 ^ (a + 1))) in *. set (N := inject_Z n) in *.
    set (D := inject_Z (Zpos d)) in *. set (B := inject_Z (2 ^ b)) in *.
    apply Qlt_shift_div_r; [lra|].
    assert (Hx : A / B * D == A * D / B) by (field; lra).
    rewrite Hx. apply Qlt_shift_div_l; [exact H3|]. nra.
  - replace (a - b - 1 + 1)%Z with (a - b)%Z by lia.
    destruct (Qlt_le_dec (n # d) (2 ^ (a - b))) as [H|H]; [exact H|].
    apply Qle_bool_iff in H. congruence.
Qed.

(** The binade depends on the value only. *)
Lemma binade_value (p q : Q) : 0 < p -> p == q -> binade p = binade q.
Proof.
  intros Hp Hpq. assert (Hq : 0 < q) by lra.
  pose proof (binade_lower p Hp) as Hl1. pose proof (binade_upper p Hp) as Hu1.
  pose proof (binade_lower q Hq) as Hl2. pose proof (binade_upper q Hq) as Hu2.
  assert (H1 : 2 ^ binade p < 2 ^ (binade q + 1)) by lra.
  assert (H2 : 2 ^ binade q < 2 ^ (binade p + 1)) by lra.
  apply Qpower_lt_compat_l_inv in H1; [|reflexivity].
  apply Qpower_lt_compat_l_inv in H2; [|reflexivity]. lia.
Qed.

Lemma ulp_exponent_value (p q : Q) : ~ p == 0 -> Qabs p == Qabs q -> ulp_exponent p = ulp_exponent q.
Proof.
  intros Hp Hpq. unfold ulp_exponent.
  rewrite (binade_value (Qabs p) (Qabs q)); [reflexivity | apply Qabs_pos; exact Hp | exact Hpq].
Qed.

Lemma nearest_even_value (p q : Q) : p == q -> nearest_even p = nearest_even q.
Proof.
  intros H. unfold nearest_even. rewrite (Qfloor_comp p q H).
  assert (Hc : (p - inject_Z (Qfloor q) ?= 1 # 2) = (q - inject_Z (Qfloor q) ?= 1 # 2)).
  { apply Qcompare_comp; [rewrite H|]; reflexivity. }
  rewrite Hc. reflexivity.
Qed.

(** Rounding depends on the value only. *)
Lemma round_value (p q : Q) : p == q -> round p == round q.
Proof.
  intros H. unfold round.
  destruct (Qeq_bool p 0) eqn:Ep.
  - apply Qeq_bool_iff in Ep.
    replace (Qeq_bool q 0) with true by (symmetry; apply Qeq_bool_iff; lra). reflexivity.
  - assert (Hp : ~ p == 0) by (intros E; apply Qeq_bool_iff in E; congruence).
    replace (Qeq_bool q 0) with false
      by (symmetry; apply not_true_is_false; intros E; apply Qeq_bool_iff in E; lra).
    rewrite (ulp_exponent_value p q Hp) by (rewrite H; reflexivity).
    rewrite (nearest_even_value (p / 2 ^ ulp_exponent q) (q / 2 ^ ulp_exponent q))
      by (rewrite H; reflexivity).
    reflexivity.
Qed.

Lemma nearest_even_opp (q : Q) : nearest_even (- q) = (- nearest_even q)%Z.
Proof.
  unfold nearest_even.
  pose proof (Qfloor_le q) as Hl. pose proof (Qlt_floor q) as Hu.
  pose proof (Qfloor_le (- q)) as Hl'. pose proof (Qlt_floor (- q)) as Hu'.
  rewrite inject_Z_plus in Hu, Hu'. change (inject_Z 1) with 1 in Hu, Hu'.
  set (f := Qfloor q) in *. set (g := Qfloor (- q)) in *.
  destruct (Qeq_dec q (inject_Z f)) as [Hint|Hfrac].
  - (* an integer *)
    assert (Hg : g = (- f)%Z).
    { assert (H1 : inject_Z g <= inject_Z (- f)) by (rewrite inject_Z_opp; lra).
      assert (H2 : inject_Z (- f) < inject_Z (g + 1)) by (rewrite inject_Z_opp, inject_Z_plus; change (inject_Z 1) with 1; lra).
      rewrite <- Zle_Qle in H1. rewrite <- Zlt_Qlt in H2. lia. }
    rewrite Hg.
    assert (E1 : (q - inject_Z f ?= 1 # 2) = Lt).
    { rewrite <- Qlt_alt. lra. }
    assert (E2 : (- q - inject_Z (- f) ?= 1 # 2) = Lt) by (rewrite <- Qlt_alt, inject_Z_opp; lra).
    rewrite E1, E2. reflexivity.
  - assert (Hg : g = (- f - 1)%Z).
    { assert (H1 : inject_Z (- f - 1) < inject_Z (g + 1)).
      { unfold Z.sub. rewrite !inject_Z_plus, !inject_Z_opp. change (inject_Z 1) with 1. lra. }
      assert (H2 : inject_Z g < inject_Z (- f)) by (rewrite inject_Z_opp; lra).
      rewrite <- Zlt_Qlt in H1, H2. lia. }
    rewrite Hg.
    assert (Hi : inject_Z (- f - 1) == - inject_Z f - 1).
    { unfold Z.sub. rewrite inject_Z_plus, !inject_Z_opp. reflexivity. }
    destruct (q - inject_Z f ?= 1 # 2) eqn:E1.
    + apply Qeq_alt in E1.
      assert (E2 : (- q - inject_Z (- f - 1) ?= 1 # 2) = Eq) by (rewrite <- Qeq_alt, Hi; lra).
      rewrite E2. replace (- f - 1)%Z with (- (f + 1))%Z by lia.
      rewrite Z.even_opp. rewrite (Z.even_add f 1). cbn.
      destruct (Z.even f); cbn; lia.
    + apply Qlt_alt in E1.
      assert (E2 : (- q - inject_Z (- f - 1) ?= 1 # 2) = Gt) by (rewrite <- Qgt_alt, Hi; lra).
      rewrite E2. lia.
    + apply Qgt_alt in E1.
      assert (E2 : (- q - inject_Z (- f - 1) ?= 1 # 2) = Lt) by (rewrite <- Qlt_alt, Hi; lra).
      rewrite E2. lia.
Qed.

(** Rounding commutes with the opposite. *)
Lemma round_opp (q : Q) : round (- q) == - round q.
Proof.
  unfold round.
  destruct (Qeq_bool q 0) eqn:E.
  - apply Qeq_bool_iff in E.
    replace (Qeq_bool (- q) 0) with true by (symmetry; apply Qeq_bool_iff; lra). reflexivity.
  - assert (Hq : ~ q == 0) by (intros H; apply Qeq_bool_iff in H; congruence).
    replace (Qeq_bool (- q) 0) with false
      by (symmetry; apply not_true_is_false; intros H; apply Qeq_bool_iff in H; lra).
    rewrite (ulp_exponent_value (- q) q) by (try (intros H; lra); apply Qabs_opp).
    rewrite (nearest_even_value (- q / 2 ^ ulp_exponent q) (- (q / 2 ^ ulp_exponent q))).
    + rewrite nearest_even_opp, inject_Z_opp. ring.
    + pose proof (two_pow_pos (ulp_exponent q)). field. lra.
Qed.

End Rounding.

(** ** The particle loop in double precision *)

Section Particles.

Import ParticlesBackground.Doubles.
Local Open Scope Q_scope.








(** The radius of 100 that the constructor gives the mouse is never
    changed. *)
Lemma radius_is_kept (s : t) :
  radius initial_mouse = num 100
  /\ (forall trig, radius (mouse (animate trig s)) = radius (mouse s))
  /\ (forall cx cy, radius (mouse (onMouseMove cx cy s)) = radius (mouse s))
  /\ (forall iw ih, radius (mouse (resize iw ih s)) = radius (mouse s)).
Proof. split; [reflexivity|]. split; [|split]; reflexivity. Qed.





Lemma same_number_refl (a : Js.number) : same_number a a.
Proof. destruct a; cbn; [reflexivity | exact I..]. Qed.

Lemma same_number_sym (a b : Js.number) : same_number a b -> same_number b a.
Proof. destruct a, b; cbn; try tauto. intros H. symmetry. exact H. Qed.

Lemma same_number_trans (a b c : Js.number) :
  same_number a b -> same_number b c -> same_number a c.
Proof. destruct a, b, c; cbn; try tauto. intros H1 H2. rewrite H1. exact H2. Qed.

Lemma opposite_same (a b : Js.number) :
  same_number a b -> same_number (opposite a) (opposite b).
Proof.
  unfold opposite. destruct a, b; cbn; try tauto. intros H. rewrite H. reflexivity.
Qed.

Lemma opposite_twice (a : Js.number) : same_number (opposite (opposite a)) a.
Proof. unfold opposite. destruct a; cbn; [ring | exact I..]. Qed.

Lemma of_exact_finite (q r : Q) :
  same_number (Double.of_exact (num q)) (num r) ->
  Double.round q == r /\ Qabs (Double.round q) <= Double.max_value.
Proof.
  unfold Double.of_exact. cbv zeta.
  destruct (Qle_bool (Qabs (Double.round q)) Double.max_value) eqn:E.
  - cbn. intros H. split; [exact H | apply Qle_bool_iff; exact E].
  - destruct (Qle_bool 0 (Double.round q)); cbn; tauto.
Qed.

Lemma of_exact_double (q : Q) :
  Double.round q == q -> Qabs q <= Double.max_value ->
  Double.of_exact (num q) = num (Double.round q).
Proof.
  intros Hr Hm. unfold Double.of_exact. cbv zeta.
  replace (Qle_bool (Qabs (Double.round q)) Double.max_value) with true; [reflexivity|].
  symmetry. apply Qle_bool_iff. rewrite Hr. exact Hm.
Qed.

(** [v *= -1] on a double is exact: the result is the opposite, and
    it is a double. *)
Lemma negation_is_exact (v : Js.number) :
  is_double v ->
  same_number (Double.mul v (num (-1))) (opposite v)
  /\ is_double (Double.mul v (num (-1))).
Proof.
  unfold is_double, opposite, Double.mul.
  destruct v as [q| | |]; cbn [Js.mul]; intros Hv.
  - apply of_exact_finite in Hv as [Hr Hm]. rewrite Hr in Hm.
    assert (Hopp : Double.round (q * -1) == q * -1).
    { rewrite (round_value (q * -1) (- q)) by ring. rewrite round_opp, Hr. ring. }
    assert (Habs : Qabs (q * -1) <= Double.max_value).
    { assert (E : Qabs (q * -1) == Qabs q).
      { assert (E' : q * -1 == - q) by ring. rewrite E'. apply Qabs_opp. }
      rewrite E. exact Hm. }
    rewrite (of_exact_double _ Hopp Habs). cbn [same_number]. split; [exact Hopp|].
    assert (Hagain : Double.round (Double.round (q * -1)) == Double.round (q * -1)).
    { rewrite (round_value _ _ Hopp). reflexivity. }
    assert (Habs' : Qabs (Double.round (q * -1)) <= Double.max_value)
      by (rewrite Hopp; exact Habs).
    rewrite (of_exact_double _ Hagain Habs'). exact Hagain.
  - split; vm_compute; exact I.
  - split; vm_compute; exact I.
  - split; exact I.
Qed.

(** One frame writes a velocity by [*= -1] or not at all, and nothing
    else of the look of a particle. *)
Lemma move_keeps_velocity (w h : Js.number) (m : Mouse) (trig : Trig) (p : Particle) :
  let p' := move w h m trig p in
  (vx p' = vx p \/ vx p' = Double.mul (vx p) (num (-1)))
  /\ (vy p' = vy p \/ vy p' = Double.mul (vy p) (num (-1)))
  /\ size p' = size p /\ color p' = color p /\ opacity p' = opacity p.
Proof.
  unfold move. cbv zeta.
  destruct (Js.lt (Double.sqrt _) _); cbn [vx vy size color opacity];
    (split; [destruct (_ || _); auto|]); (split; [destruct (_ || _); auto|]);
    repeat split.
Qed.

Lemma flip_keeps_magnitude (v0 v v' : Js.number) :
  is_double v -> same_magnitude v v0 ->
  v' = v \/ v' = Double.mul v (num (-1)) ->
  is_double v' /\ same_magnitude v' v0.
Proof.
  intros Hd Hm [->| ->]; [split; assumption|].
  destruct (negation_is_exact v Hd) as [Hopp Hd']. split; [exact Hd'|].
  destruct Hm as [H|H].
  - right. eapply same_number_trans; [exact Hopp|]. apply opposite_same. exact H.
  - left. eapply same_number_trans; [exact Hopp|].
    eapply same_number_trans; [apply opposite_same; exact H|]. apply opposite_twice.
Qed.

(** X24.  In the double arithmetic of the code, frames never change
    how fast a particle is, how it looks or how many particles there
    are: whatever the engine returns for the cosines and the sines,
    after any number of frames every particle has on each axis the
    velocity it had or its opposite, which is a double again, and its
    size, its colour and its opacity. *)
Theorem doubles_keep_their_speed :
  forall (trigs : list (nat -> Trig)) (s : t) (i : nat) (p : Particle),
    particles s !! i = Some p ->
    is_double (vx p) -> is_double (vy p) ->
    length (particles (double_frames trigs s)) = length (particles s)
    /\ exists p',
         particles (double_frames trigs s) !! i = Some p'
         /\ same_magnitude (vx p') (vx p) /\ same_magnitude (vy p') (vy p)
         /\ is_double (vx p') /\ is_double (vy p')
         /\ size p' = size p /\ color p' = color p /\ opacity p' = opacity p.
Proof.
  intros trigs s i p Hp Hdx Hdy.
  assert (H : forall s0 p0,
             particles s0 !! i = Some p0 ->
             length (particles s0) = length (particles s) ->
             is_double (vx p0) -> is_double (vy p0) ->
             same_magnitude (vx p0) (vx p) -> same_magnitude (vy p0) (vy p) ->
             size p0 = size p -> color p0 = color p -> opacity p0 = opacity p ->
             length (particles (double_frames trigs s0)) = length (particles s)
             /\ exists p',
                  particles (double_frames trigs s0) !! i = Some p'
                  /\ same_magnitude (vx p') (vx p) /\ same_magnitude (vy p') (vy p)
                  /\ is_double (vx p') /\ is_double (vy p')
                  /\ size p' = size p /\ color p' = color p /\ opacity p' = opacity p).
  { induction trigs as [|trig trigs IH];
      intros s0 p0 Hp0 Hlen Hd1 Hd2 Hm1 Hm2 Hs Hc Ho.
    - split; [exact Hlen|]. exists p0. auto 10.
    - unfold double_frames in *. cbn [foldl].
      destruct (move_keeps_velocity (width s0) (height s0) (mouse s0) (trig i) p0)
        as (Hvx & Hvy & Hs' & Hc' & Ho').
      destruct (flip_keeps_magnitude (vx p) (vx p0) _ Hd1 Hm1 Hvx) as [Hd1' Hm1'].
      destruct (flip_keeps_magnitude (vy p) (vy p0) _ Hd2 Hm2 Hvy) as [Hd2' Hm2'].
      apply (IH (animate trig s0) (move (width s0) (height s0) (mouse s0) (trig i) p0));
        try assumption; try congruence.
      + unfold animate. cbn [particles]. rewrite list_lookup_imap, Hp0. reflexivity.
      + unfold animate. cbn [particles]. rewrite length_imap. exact Hlen. }
  apply (H s p Hp eq_refl Hdx Hdy); try reflexivity;
    left; apply same_number_refl.
Qed.

(** A particle that leaves the canvas to the right: after three
    frames its velocity is 3 or -3. *)
Lemma doubles_keep_their_speed_witness :
  let p := {| x := num 799; y := num 500; vx := num 3; vy := num 0;
              size := num 2; color := "#7c3aed"; opacity := num 1 |} in
  let s := {| width := num 800; height := num 600; particles := [p];
              mouse := initial_mouse |} in
  let trig := fun _ : nat => {| cos_angle := num 1; sin_angle := num 0 |} in
  exists p', particles (double_frames [trig; trig; trig] s) !! 0%nat = Some p'
             /\ same_magnitude (vx p') (num 3).
Proof.
  intros p s trig.
  assert (H3 : is_double (num 3)) by (vm_compute; reflexivity).
  assert (H0 : is_double (num 0)) by (vm_compute; reflexivity).
  destruct (doubles_keep_their_speed [trig; trig; trig] s 0%nat p eq_refl H3 H0)
    as (_ & p' & Hp' & Hvx & _).
  exists p'. split; [exact Hp' | exact Hvx].
Defined.

End Particles.

(** ** The handlers on concrete inputs *)

Section Examples.

Example formatPhone_ten_digits : Utils.formatPhone "0612345678" = "06 12 34 56 78".
Proof. reflexivity. Qed.

Example formatPhone_leftmost_run :
  Utils.formatPhone "tel: 0612345678901 ok" = "tel: 06 12 34 56 78901 ok".
Proof. reflexivity. Qed.

Example formatPhone_already_grouped :
  Utils.formatPhone "06 12 34 56 78" = "06 12 34 56 78".
Proof. reflexivity. Qed.

Example validateEmail_examples :
  map (fun s => NewsletterManager.validateEmail (Js.utf16 s))
      ["a@b.c"; "a@b..c"; "a.b@c.d"; "a@.c"; "a@b."; "a b@c.d"; "a@b@c.d"; "@b.c"; "";
       "zoé@b.c"]
  = [true; true; true; false; false; false; false; false; false; true].
Proof. reflexivity. Qed.

(** No-break space, em space and line separator are white space for
    the address check; a letter outside the basic plane is not. *)
Example validateEmail_unicode_space :
  map (fun c : N => NewsletterManager.validateEmail ([97; c]%N ++ Js.utf16 "b@c.d"))
      [160; 8195; 8232; 12288; 65279; 233; 55357]%N
  = [false; false; false; false; false; true; true].
Proof. reflexivity. Qed.

Example utf16_examples :
  Js.utf16 "Dév" = [68; 233; 118]%N
  /\ Js.utf16 "a€" = [97; 8364]%N
  /\ Js.utf16 "😀" = [55357; 56832]%N.
Proof. repeat split; reflexivity. Qed.

Example submitForm_threshold :
  map (fun q => Promise.outcome (ContactFormManager.submitForm ∅ (num q)))
      [0; 1 # 10; 11 # 100; 999 # 1000]%Q
  = [Promise.Rejected "Network error"; Promise.Rejected "Network error";
     Promise.Resolved Promise.Success; Promise.Resolved Promise.Success].
Proof. reflexivity. Qed.

Example scrolled_examples :
  let doc top sh ch :=
    {| NavigationManager.body_scrollTop := num 0;
       NavigationManager.doc_scrollTop := num top;
       NavigationManager.scrollHeight := num sh;
       NavigationManager.clientHeight := num ch |} in
  Js.round (NavigationManager.scrolled (doc 300 2000 800)%Q) = num 25
  /\ NavigationManager.scrolled (doc 0 800 800)%Q = Js.NaN
  /\ NavigationManager.scrolled (doc 5 800 800)%Q = Js.PosInf.
Proof. cbv zeta. repeat split; reflexivity. Qed.

(** Doubles: 0.1 + 0.2 is 0.30000000000000004; 2^53 + 1 is a tie and
    goes to the even 2^53, 2^53 + 3 to 2^53 + 4; the root of 2; half
    of the least double is a tie and goes to 0; twice the largest
    double is an infinity. *)
Example double_rounding :
  let tenth := num (3602879701896397 # 36028797018963968) in
  let fifth := num (3602879701896397 # 18014398509481984) in
  let big := num (inject_Z (2 ^ 53)) in
  same_number (Double.add tenth fifth) (num (1351079888211149 # 4503599627370496))
  /\ same_number (Double.add big (num 1)) big
  /\ same_number (Double.add big (num 3)) (num (inject_Z (2 ^ 53 + 4)))
  /\ same_number (Double.sqrt (num 2)) (num (6369051672525773 # 4503599627370496))
  /\ same_number (Double.div (num (2 ^ (-1074))) (num 2)) (num 0)
  /\ Double.mul (num Double.max_value) (num 2) = Js.PosInf
  /\ Double.sqrt (num (-1)) = Js.NaN.
Proof. cbv zeta. do 6 (split; [vm_compute; reflexivity|]). vm_compute. reflexivity. Qed.

Example logEvent_trims :
  let entries := map (fun n : nat => ("id", "now", "click", [("n", pretty n)])) (seq 0 103) in
  map AnalyticsManager.data
      (take 2 (AnalyticsManager.events
                 (AnalyticsManager.log_all entries AnalyticsManager.init)))
  = [[("n", "3")]; [("n", "4")]]
  /\ length (AnalyticsManager.events
               (AnalyticsManager.log_all entries AnalyticsManager.init)) = 100%nat.
Proof. cbv zeta. split; vm_compute; reflexivity. Qed.

End Examples.

(** ** Throttle and debounce *)

Section Timers.

Lemma throttle_burst_dropped {Args} (rest : list Args) (s : Throttle.t Args) :
  Throttle.inThrottle s = true ->
  Throttle.run (map Throttle.Call rest) s = s.
Proof.
  induction rest as [|a rest IH]; intros Hthr; [reflexivity|].
  cbn. rewrite Hthr. apply IH, Hthr.
Qed.

Lemma throttle_step_count {Args} (e : Throttle.event Args) (s : Throttle.t Args) :
  (length (Throttle.executed (Throttle.step e s))
   + (if Throttle.inThrottle (Throttle.step e s) then 0 else 1)
   <= length (Throttle.executed s)
      + (if Throttle.inThrottle s then 0 else 1) + Throttle.timers [e])%nat.
Proof.
  destruct e as [a|]; cbn.
  - destruct (Throttle.inThrottle s) eqn:E; cbn; rewrite ?E, ?length_app; cbn; lia.
  - destruct (Throttle.inThrottle s); cbn; lia.
Qed.

Lemma throttle_timers_cons {Args} (e : Throttle.event Args) (es : list (Throttle.event Args)) :
  Throttle.timers (e :: es) = (Throttle.timers [e] + Throttle.timers es)%nat.
Proof. destruct e; reflexivity. Qed.

Lemma throttle_run_count {Args} (es : list (Throttle.event Args)) (s : Throttle.t Args) :
  (length (Throttle.executed (Throttle.run es s))
   + (if Throttle.inThrottle (Throttle.run es s) then 0 else 1)
   <= length (Throttle.executed s)
      + (if Throttle.inThrottle s then 0 else 1) + Throttle.timers es)%nat.
Proof.
  revert s. induction es as [|e es IH]; intros s.
  - cbn. lia.
  - change (Throttle.run (e :: es) s) with (Throttle.run es (Throttle.step e s)).
    rewrite throttle_timers_cons.
    pose proof (IH (Throttle.step e s)). pose proof (throttle_step_count e s). lia.
Qed.

Lemma throttle_executed_sublist {Args} (es : list (Throttle.event Args)) (s : Throttle.t Args) :
  exists added,
    Throttle.executed (Throttle.run es s) = Throttle.executed s ++ added
    /\ sublist added
         (omap (fun e => match e with Throttle.Call a => Some a | _ => None end) es).
Proof.
  revert s. induction es as [|e es IH]; intros s.
  - exists []. split; [symmetry; apply app_nil_r | constructor].
  - change (Throttle.run (e :: es) s) with (Throttle.run es (Throttle.step e s)).
    destruct (IH (Throttle.step e s)) as (added & Heq & Hsub).
    destruct e as [a|]; cbn [Throttle.step omap] in *.
    + destruct (Throttle.inThrottle s).
      * exists added. split; [exact Heq|]. cbn. apply sublist_cons. exact Hsub.
      * exists (a :: added). cbn [Throttle.executed] in Heq.
        rewrite Heq, <- app_assoc. split; [reflexivity|].
        cbn. apply sublist_skip. exact Hsub.
    + exists added. split; [exact Heq | exact Hsub].
Qed.

(** X1.  A throttled function that is not waiting runs the first
    call of a burst and drops the others (no call is kept for later);
    in any sequence of calls and timer expiries it runs at most once
    more than the timer has expired, and only with arguments it was
    called with, in the order of the calls. *)
Theorem throttle_runs_first_of_burst :
  forall (Args : Type),
    (forall (a : Args) (rest : list Args) (s : Throttle.t Args),
        Throttle.inThrottle s = false ->
        Throttle.executed (Throttle.run (map Throttle.Call (a :: rest)) s)
        = Throttle.executed s ++ [a])
    /\ (forall (es : list (Throttle.event Args)) (s : Throttle.t Args),
          (length (Throttle.executed (Throttle.run es s))
           <= length (Throttle.executed s) + 1 + Throttle.timers es)%nat)
    /\ (forall (es : list (Throttle.event Args)) (s : Throttle.t Args),
          exists added,
            Throttle.executed (Throttle.run es s) = Throttle.executed s ++ added
            /\ sublist added
                 (omap (fun e => match e with Throttle.Call a => Some a | _ => None end)
                       es)).
Proof.
  intros Args. split; [|split].
  - intros a rest s Hs.
    change (Throttle.run (map Throttle.Call (a :: rest)) s)
      with (Throttle.run (map Throttle.Call rest) (Throttle.step (Throttle.Call a) s)).
    cbn [Throttle.step]. rewrite Hs.
    rewrite throttle_burst_dropped by reflexivity. reflexivity.
  - intros es s. pose proof (throttle_run_count es s).
    destruct (Throttle.inThrottle s), (Throttle.inThrottle (Throttle.run es s)); lia.
  - apply throttle_executed_sublist.
Qed.

Lemma debounce_calls {Args} (calls : list Args) (a : Args) (s : Debounce.t Args) :
  Debounce.run (map Debounce.Call (calls ++ [a])) s
  = {| Debounce.timeout := Some a; Debounce.executed := Debounce.executed s |}.
Proof.
  revert s. induction calls as [|c calls IH]; intros s; [reflexivity|].
  cbn [app map]. change (Debounce.run (?e :: ?es) s)
    with (Debounce.run es (Debounce.step e s)).
  rewrite IH. reflexivity.
Qed.

Lemma debounce_run_count {Args} (es : list (Debounce.event Args)) (s : Debounce.t Args) :
  (length (Debounce.executed (Debounce.run es s))
   <= length (Debounce.executed s) + Debounce.timers es)%nat.
Proof.
  revert s. induction es as [|e es IH]; intros s; [cbn; lia|].
  change (Debounce.run (e :: es) s) with (Debounce.run es (Debounce.step e s)).
  pose proof (IH (Debounce.step e s)) as H.
  destruct e as [a|]; cbn in *.
  - lia.
  - destruct (Debounce.timeout s); cbn in *; rewrite ?length_app in H; cbn in H; lia.
Qed.

(** X2.  A debounced function called several times in a row runs once,
    when the timer expires, with the arguments of the last call; a
    timer that expires again does nothing; and in any sequence of
    events the function runs at most once per timer expiry. *)
Theorem debounce_runs_last_of_burst :
  forall (Args : Type),
    (forall (calls : list Args) (a : Args) (s : Debounce.t Args),
        let s' := Debounce.run (map Debounce.Call (calls ++ [a])
                                ++ [Debounce.TimerFired; Debounce.TimerFired]) s in
        Debounce.executed s' = Debounce.executed s ++ [a]
        /\ Debounce.timeout s' = None)
    /\ (forall (es : list (Debounce.event Args)) (s : Debounce.t Args),
          (length (Debounce.executed (Debounce.run es s))
           <= length (Debounce.executed s) + Debounce.timers es)%nat).
Proof.
  intros Args. split; [|apply debounce_run_count].
  intros calls a s s'.
  assert (Hrun : s' = {| Debounce.timeout := None;
                         Debounce.executed := Debounce.executed s ++ [a] |}).
  { subst s'. unfold Debounce.run. rewrite foldl_app.
    fold (Debounce.run (map Debounce.Call (calls ++ [a])) s).
    rewrite debounce_calls. reflexivity. }
  rewrite Hrun. split; reflexivity.
Qed.

End Timers.

(** ** More on the viewport test, the theme and the navigation *)

Section MoreNavigation.

Lemma le_fin (a b : Q) : Js.le (num a) (num b) = true <-> (a <= b)%Q.
Proof. cbn. apply Qle_bool_iff. Qed.

(** X3.  The viewport test is monotone in its offset: for a viewport
    of non-negative height, an element that passes the test with an
    offset passes it with every smaller offset. *)
Theorem isInViewport_offset_monotone :
  forall (innerHeight clientHeight top bottom : Js.number) (H o1 o2 : Q),
    Js.or_else innerHeight clientHeight = num H ->
    (0 <= H)%Q -> (o1 <= o2)%Q ->
    Utils.isInViewport innerHeight clientHeight top bottom (num o2) = true ->
    Utils.isInViewport innerHeight clientHeight top bottom (num o1) = true.
Proof.
  intros ih ch top bottom H o1 o2 HH H0 Ho. unfold Utils.isInViewport.
  rewrite HH. cbn [Js.sub Js.mul]. rewrite !andb_true_iff.
  intros [Htop Hbot]. split; [|exact Hbot].
  destruct top as [t| | |]; try exact Htop.
  apply le_fin. apply le_fin in Htop. nra.
Qed.

(** An element 700 pixels down a window of 800 passes with offset 0.1,
    hence with offset 0. *)
Lemma isInViewport_offset_monotone_witness :
  Utils.isInViewport (num 800) (num 0) (num 700) (num 900) (num (1 # 10)) = true
  /\ Utils.isInViewport (num 800) (num 0) (num 700) (num 900) (num 0) = true.
Proof.
  split; [reflexivity|].
  apply (isInViewport_offset_monotone (num 800) (num 0) (num 700) (num 900)
                                      800 0 (1 # 10));
    [reflexivity | discriminate | discriminate | reflexivity].
Defined.

Lemma theme_stays_stored (es : list ThemeManager.event) (s : ThemeManager.t) :
  Js.truthy_string (ThemeManager.theme s) = true
  /\ ThemeManager.localStorage s !! "theme" = Some (ThemeManager.theme s) ->
  Js.truthy_string (ThemeManager.theme (ThemeManager.run es s)) = true
  /\ ThemeManager.localStorage (ThemeManager.run es s) !! "theme"
     = Some (ThemeManager.theme (ThemeManager.run es s)).
Proof.
  revert s. induction es as [|e es IH]; intros s H; [exact H|].
  change (ThemeManager.run (e :: es) s)
    with (ThemeManager.run es (ThemeManager.step e s)).
  apply IH. destruct H as [Htr Hst]. destruct e as [|m]; cbn [ThemeManager.step].
  - unfold ThemeManager.toggleTheme, ThemeManager.dispatchEvent, ThemeManager.setTheme.
    cbn [ThemeManager.theme ThemeManager.localStorage].
    rewrite lookup_insert_eq.
    destruct (bool_decide (ThemeManager.theme s = "light")); split; reflexivity.
  - unfold ThemeManager.onSystemPreferenceChange, ThemeManager.getItem_truthy.
    rewrite Hst, Htr. split; assumption.
Qed.

Lemma load_theme_stored stored prefers body meta :
  Js.truthy_string (ThemeManager.theme (ThemeManager.load stored prefers body meta)) = true
  /\ ThemeManager.localStorage (ThemeManager.load stored prefers body meta) !! "theme"
     = Some (ThemeManager.theme (ThemeManager.load stored prefers body meta)).
Proof.
  unfold ThemeManager.load, ThemeManager.init, ThemeManager.setTheme.
  cbn [ThemeManager.theme ThemeManager.localStorage]. rewrite lookup_insert_eq.
  split; [|reflexivity]. unfold ThemeManager.initial_theme.
  destruct (stored !! "theme") as [v|]; [destruct (Js.truthy_string v) eqn:E|];
    try exact E; destruct prefers; reflexivity.
Qed.

(** X4.  Once the page has loaded, a change of the system colour
    scheme changes nothing: loading always stores a theme flag, and the
    handler of the media query acts only when there is none. *)
Theorem system_preference_is_ignored_after_load :
  forall (stored : gmap string string) (prefers : bool) (body : gset string)
         (meta : option string) (es : list ThemeManager.event) (matches : bool),
    let s := ThemeManager.run es (ThemeManager.load stored prefers body meta) in
    ThemeManager.step (ThemeManager.SystemPreference matches) s = s.
Proof.
  intros stored prefers body meta es m s.
  destruct (theme_stays_stored es _ (load_theme_stored stored prefers body meta))
    as [Htr Hst]. fold s in Htr, Hst.
  cbn [ThemeManager.step].
  unfold ThemeManager.onSystemPreferenceChange, ThemeManager.getItem_truthy.
  rewrite Hst, Htr. reflexivity.
Qed.

(** X5.  The theme survives a reload: whatever happened since the page
    was loaded, loading it again from the local storage it left gives
    the same theme, whatever the system preference is by then. *)
Theorem theme_survives_reload :
  forall (stored : gmap string string) (prefers : bool) (body : gset string)
         (meta : option string) (es : list ThemeManager.event)
         (prefers' : bool) (body' : gset string) (meta' : option string),
    let s := ThemeManager.run es (ThemeManager.load stored prefers body meta) in
    ThemeManager.theme (ThemeManager.load (ThemeManager.localStorage s) prefers' body' meta')
    = ThemeManager.theme s.
Proof.
  intros stored prefers body meta es prefers' body' meta' s.
  destruct (theme_stays_stored es _ (load_theme_stored stored prefers body meta))
    as [Htr Hst]. fold s in Htr, Hst.
  unfold ThemeManager.load, ThemeManager.init, ThemeManager.setTheme.
  cbn [ThemeManager.theme]. unfold ThemeManager.initial_theme.
  rewrite Hst, Htr. reflexivity.
Qed.

(** X6.  After [toggleMenu] or [closeMenu], whatever the page looked
    like before, the class of the menu, [aria-expanded] and the scroll
    lock of the body reflect [STATE.menuOpen]; closing leaves the menu
    closed and is idempotent, and toggling twice restores the flag. *)
Theorem menu_stays_consistent :
  forall s : NavigationManager.t,
    menu_consistent (NavigationManager.toggleMenu s)
    /\ menu_consistent (NavigationManager.closeMenu s)
    /\ NavigationManager.menuOpen (NavigationManager.closeMenu s) = false
    /\ NavigationManager.closeMenu (NavigationManager.closeMenu s)
       = NavigationManager.closeMenu s
    /\ NavigationManager.closeMenu (NavigationManager.toggleMenu s)
       = NavigationManager.closeMenu s
    /\ NavigationManager.menuOpen
         (NavigationManager.toggleMenu (NavigationManager.toggleMenu s))
       = NavigationManager.menuOpen s.
Proof.
  intros s. unfold menu_consistent, NavigationManager.toggleMenu, NavigationManager.closeMenu.
  cbn [NavigationManager.navMenu NavigationManager.menuOpen
       NavigationManager.aria_expanded NavigationManager.body_overflow].
  repeat split.
  - destruct (NavigationManager.menuOpen s); cbn [negb]; class_list;
      intuition (congruence || discriminate).
  - destruct (NavigationManager.menuOpen s); cbn [negb]; class_list;
      intuition (congruence || discriminate).
  - class_list. intuition (congruence || discriminate).
  - discriminate.
  - f_equal. apply set_eq. intros x. class_list. tauto.
  - f_equal. apply set_eq. intros x.
    destruct (negb (NavigationManager.menuOpen s)); class_list; tauto.
  - apply negb_involutive.
Qed.

End MoreNavigation.

(** ** The active navigation link and the progress value *)

Section ActiveLink.

Import NavigationManager.

Lemma visitSection_cases (sp : Js.number) (s : t) (sec : Section_) :
  visitSection sp s sec = s
  \/ (Js.ge sp (offsetTop sec) = true
      /\ Js.lt sp (Js.add (offsetTop sec) (sectionHeight sec)) = true
      /\ dispatched (visitSection sp s sec)
         = dispatched s ++ [{| Dom.event_type := "sectionChange";
                               Dom.detail := section_id sec |}]
      /\ currentSection (visitSection sp s sec) = Some (section_id sec)
      /\ links_point_to (section_id sec) (visitSection sp s sec)).
Proof.
  unfold visitSection.
  destruct (Js.ge sp (offsetTop sec)) eqn:E1; [|left; reflexivity].
  destruct (Js.lt sp (Js.add (offsetTop sec) (sectionHeight sec))) eqn:E2;
    [|left; reflexivity].
  destruct (bool_decide (currentSection s = Some (section_id sec))); [left; reflexivity|].
  right. cbn [andb negb dispatched currentSection].
  do 4 (split; [reflexivity|]). unfold links_point_to. cbn [navLinks].
  intros l Hl. apply list_elem_of_In, in_map_iff in Hl as (l0 & <- & _).
  cbn [link_classes href].
  destruct (bool_decide (href l0 = "#" +:+ section_id sec)) eqn:E.
  - apply bool_decide_eq_true in E. class_list. tauto.
  - apply bool_decide_eq_false in E. class_list. tauto.
Qed.

Lemma setActiveNavLink_fold (sp : Js.number) (sections : list Section_) (s : t) :
  exists extra,
    dispatched (foldl (visitSection sp) s sections) = dispatched s ++ extra
    /\ (extra = [] -> foldl (visitSection sp) s sections = s)
    /\ (extra <> [] ->
        exists sec,
          sec ∈ sections
          /\ Js.ge sp (offsetTop sec) = true
          /\ Js.lt sp (Js.add (offsetTop sec) (sectionHeight sec)) = true
          /\ currentSection (foldl (visitSection sp) s sections) = Some (section_id sec)
          /\ links_point_to (section_id sec) (foldl (visitSection sp) s sections)).
Proof.
  revert s. induction sections as [|sec sections IH]; intros s.
  - exists []. cbn. rewrite app_nil_r. repeat split; congruence.
  - cbn [foldl]. destruct (IH (visitSection sp s sec)) as (extra & Hd & Hnil & Hcons).
    destruct (visitSection_cases sp s sec) as [Hsame|(H1 & H2 & Hev & Hcur & Hlinks)].
    + rewrite Hsame in *. exists extra. split; [exact Hd|]. split; [exact Hnil|].
      intros Hne. destruct (Hcons Hne) as (sec' & Hin & Hrest).
      exists sec'. split; [apply elem_of_cons; right; exact Hin | exact Hrest].
    + eexists. rewrite Hd, Hev, <- app_assoc. split; [reflexivity|].
      split; [discriminate|]. intros _.
      destruct extra as [|e extra].
      * rewrite (Hnil eq_refl). exists sec.
        split; [apply elem_of_cons; left; reflexivity | auto].
      * destruct (Hcons ltac:(discriminate)) as (sec' & Hin & Hrest).
        exists sec'. split; [apply elem_of_cons; right; exact Hin | exact Hrest].
Qed.

(** X7.  [setActiveNavLink] touches the page only when it dispatches a
    [sectionChange] event: if it dispatches none, nothing has changed;
    if it dispatches one, the current section is a section that
    contains the scroll position (offset by 100), and exactly the
    navigation links that point to it are active. *)
Theorem setActiveNavLink_links :
  forall (sections : list Section_) (scrollY : Js.number) (s : t),
    let s' := setActiveNavLink sections scrollY s in
    (dispatched s' = dispatched s -> s' = s)
    /\ (dispatched s' <> dispatched s ->
        exists sec,
          sec ∈ sections /\ section_contains scrollY sec
          /\ currentSection s' = Some (section_id sec)
          /\ links_point_to (section_id sec) s').
Proof.
  intros sections scrollY s s'. subst s'. unfold setActiveNavLink, section_contains.
  destruct (setActiveNavLink_fold (Js.add scrollY (num 100)) sections s)
    as (extra & Hd & Hnil & Hcons).
  split.
  - intros Heq. apply Hnil. rewrite Hd in Heq.
    rewrite <- (app_nil_r (dispatched s)) in Heq at 2.
    apply app_inv_head in Heq. exact Heq.
  - intros Hne.
    assert (Hextra : extra <> []).
    { intros ->. apply Hne. rewrite Hd. apply app_nil_r. }
    destruct (Hcons Hextra) as (sec & Hin & H1 & H2 & Hcur & Hlinks).
    exists sec. auto.
Qed.

Lemma round_in_range (p : Q) :
  (0 <= p)%Q -> (p <= 100)%Q ->
  exists z : Z, Js.round (num p) = num (inject_Z z) /\ (0 <= z <= 100)%Z.
Proof.
  intros H0 H100. exists (Qfloor (p + (1 # 2))). split; [reflexivity|].
  split.
  - change 0%Z with (Qfloor (0 # 1)). apply Qfloor_resp_le. lra.
  - change 100%Z with (Qfloor (201 # 2)). apply Qfloor_resp_le. lra.
Qed.

(** X8.  Under the conditions of the progress bar (a positive
    scrollable height, a scroll offset between 0 and it), the
    [aria-valuenow] that [updateProgressBar] sets is a whole number
    between 0 and 100; the width is 0 at the top of the page and 100 at
    its bottom. *)
Theorem updateProgressBar_aria_valuenow :
  forall (d : Document) (s : t) (bar : ProgressBar) (h t : Q),
    progressBar s = Some bar ->
    scrollable_height d = num h -> winScroll d = num t ->
    (0 < h)%Q -> (0 <= t)%Q -> (t <= h)%Q ->
    exists (bar' : ProgressBar) (p : Q) (z : Z),
      progressBar (updateProgressBar d s) = Some bar'
      /\ width_percent bar' = num p
      /\ aria_valuenow bar' = num (inject_Z z) /\ (0 <= z <= 100)%Z
      /\ ((t == 0)%Q -> (p == 0)%Q)
      /\ ((t == h)%Q -> (p == 100)%Q).
Proof.
  intros d s bar h t Hbar Hh Ht Hpos H0 Hle.
  unfold updateProgressBar. rewrite Hbar.
  destruct (scrolled_in_range d h t Hh Ht Hpos H0 Hle) as (p & Hp & Hp0 & Hp100).
  destruct (round_in_range p Hp0 Hp100) as (z & Hz & Hzr).
  eexists _, p, z. split; [reflexivity|]. cbn [width_percent aria_valuenow].
  rewrite Hp. split; [apply set_width_in_range; exact Hp0|].
  split; [exact Hz|]. split; [exact Hzr|].
  assert (Hpeq : (p == t / h * 100)%Q).
  { unfold scrolled in Hp. rewrite Hh, Ht in Hp. cbn [Js.div Js.mul] in Hp.
    unfold Js.sgn in Hp. destruct (0 ?= h)%Q eqn:E.
    - apply Qeq_alt in E. lra.
    - injection Hp as <-. reflexivity.
    - apply Qgt_alt in E. lra. }
  split; intros Heq; rewrite Hpeq, Heq; field; lra.
Qed.

(** A page 2000 pixels high in a window of 800, scrolled to the end. *)
Lemma updateProgressBar_aria_valuenow_witness :
  let d := {| body_scrollTop := num 0; doc_scrollTop := num 1200;
              scrollHeight := num 2000; clientHeight := num 800 |} in
  let s := {| scrollPosition := num 0; menuOpen := false; navbar := ∅; navMenu := ∅;
              aria_expanded := "false"; body_overflow := "";
              progressBar := Some {| width_percent := num 0; aria_valuenow := num 0 |};
              navLinks := []; currentSection := None; dispatched := [] |} in
  exists (bar' : ProgressBar) (p : Q),
    progressBar (updateProgressBar d s) = Some bar'
    /\ width_percent bar' = num p /\ (p == 100)%Q.
Proof.
  intros d s.
  destruct (updateProgressBar_aria_valuenow d s _ (2000 - 800)%Q 1200%Q
              eq_refl eq_refl eq_refl)
    as (bar' & p & z & Hbar & Hw & _ & _ & _ & Hend);
    [reflexivity | discriminate | discriminate |].
  exists bar', p. split; [exact Hbar|]. split; [exact Hw|]. apply Hend. reflexivity.
Defined.

End ActiveLink.

(** ** The observer and the counters *)

Section Observer.

Import AnimationManager.

Lemma has_ascii_whitespace_app (s r : string) :
  Dom.has_ascii_whitespace (s +:+ r)
  = Dom.has_ascii_whitespace s || Dom.has_ascii_whitespace r.
Proof.
  induction s as [|c s IH]; [reflexivity|].
  rewrite string_app_cons. cbn [Dom.has_ascii_whitespace]. rewrite IH.
  apply orb_assoc.
Qed.

(** The two tokens of [animateElement] are accepted exactly when the
    animation name holds no ASCII white space. *)
Lemma animation_tokens_valid (a : string) :
  Dom.valid_token "animate__animated" && Dom.valid_token ("animate__" +:+ a)
  = negb (Dom.has_ascii_whitespace a).
Proof.
  unfold Dom.valid_token. rewrite has_ascii_whitespace_app. reflexivity.
Qed.

Lemma is_ascii_whitespace_spec (c : ascii) :
  Dom.is_ascii_whitespace c = true <-> c ∈ ascii_white_space.
Proof.
  unfold ascii_white_space. rewrite !elem_of_cons, elem_of_nil. split.
  - destruct c as [[] [] [] [] [] [] [] []]; cbn; intros H; try discriminate; tauto.
  - intros [->|[->|[->|[->|[->|[]]]]]]; reflexivity.
Qed.

Lemma has_ascii_whitespace_spec (s : string) :
  Dom.has_ascii_whitespace s = false <-> free_of_white_space s.
Proof.
  unfold free_of_white_space. induction s as [|c s IH].
  - cbn. split; [constructor | reflexivity].
  - cbn [Dom.has_ascii_whitespace list_ascii_of_string].
    rewrite orb_false_iff, Forall_cons, IH, <- is_ascii_whitespace_spec.
    destruct (Dom.is_ascii_whitespace c); intuition congruence.
Qed.

(** X9.  The observer animates an element once and the end of the
    animation undoes it.  For an observed element that is not being
    animated: when its [data-animate] value holds no ASCII white
    space, an intersecting entry adds the two animation classes and
    stops observing the element, and the [animationend] that follows
    leaves its class list as it was before.  When the value holds
    ASCII white space, [classList.add] throws: the callback ends
    there, nothing has changed, the element is still observed and the
    entries after it are not handled.  An entry that does not
    intersect changes nothing. *)
Theorem observer_animation_round_trip :
  forall (s : t) (i : nat) (el : Element) (a : string),
    elements s !! i = Some el ->
    data_animate el = Some a ->
    animationend_listeners el = [] ->
    "animate__animated" ∉ classes el ->
    "animate__" +:+ a ∉ classes el ->
    let entry := {| target := i; isIntersecting := true |} in
    let s1 := step (Intersection [entry]) s in
    (free_of_white_space a ->
       classes_of s1 i = classes el ∪ {["animate__animated"; "animate__" +:+ a]}
       /\ (i ∉ observed s1)
       /\ classes_of (step (AnimationEnd i) s1) i = classes el)
    /\ (~ free_of_white_space a ->
        forall rest, step (Intersection (entry :: rest)) s = s)
    /\ step (Intersection [{| target := i; isIntersecting := false |}]) s = s.
Proof.
  intros s i el a Hel Ha Hl Hn1 Hn2 entry s1.
  assert (Hname : animation_name el = a) by (unfold animation_name; rewrite Ha; reflexivity).
  assert (Hi : (i < length (elements s))%nat) by (eapply lookup_lt_Some; exact Hel).
  pose proof (animation_tokens_valid a) as Htok.
  split; [|split].
  - intros Hws. apply has_ascii_whitespace_spec in Hws.
    rewrite Hws in Htok. cbn [negb] in Htok.
    set (el' := {| classes := Dom.add ("animate__" +:+ a)
                                      (Dom.add "animate__animated" (classes el));
                   data_animate := data_animate el;
                   animationend_listeners := [a] |}).
    assert (Hanim : animateElement el = Some el').
    { unfold animateElement, Dom.add2. rewrite Hname, Htok, Hl. reflexivity. }
    assert (Hs1 : s1 = {| elements := <[i := el']> (elements s);
                          observed := observed s ∖ {[i]};
                          inThrottle := inThrottle s |}).
    { subst s1 entry. cbn [step onEntries onEntry isIntersecting target].
      rewrite Hel, Hanim. reflexivity. }
    rewrite Hs1. split; [|split].
    + rewrite classes_of_insert by exact Hi. rewrite bool_decide_eq_true_2 by reflexivity.
      cbn [classes el']. apply set_eq. intros x. class_list. tauto.
    + cbn [observed]. rewrite elem_of_difference, elem_of_singleton. tauto.
    + unfold classes_of. cbn [step elements].
      rewrite list_lookup_alter_eq, list_lookup_insert_eq by exact Hi.
      cbn [fmap option_fmap option_map animationend_listeners el' foldl].
      unfold onAnimationEnd, Dom.remove2. rewrite Htok.
      cbn [set_classes classes el'].
      apply set_eq. intros x. class_list.
      split; [tauto|]. intros Hx. repeat split; try tauto; congruence.
  - intros Hws rest. rewrite <- has_ascii_whitespace_spec in Hws.
    apply not_false_is_true in Hws. rewrite Hws in Htok. cbn [negb] in Htok.
    subst entry. cbn [step onEntries onEntry isIntersecting target].
    rewrite Hel. unfold animateElement, Dom.add2. rewrite Hname, Htok. reflexivity.
  - reflexivity.
Qed.

(** A heading with [data-animate="fadeIn"]; and the same heading with
    [data-animate="fade in"], which the callback leaves as it is. *)
Lemma observer_animation_round_trip_witness :
  let heading a := {| classes := {["title"]}; data_animate := Some a;
                      animationend_listeners := [] |} in
  let page a := {| elements := [heading a]; observed := {[0%nat]}; inThrottle := false |} in
  let entry := {| target := 0%nat; isIntersecting := true |} in
  classes_of (step (Intersection [entry]) (page "fadeIn")) 0
  = ({["title"; "animate__animated"; "animate__fadeIn"]} : gset string)
  /\ classes_of (step (AnimationEnd 0) (step (Intersection [entry]) (page "fadeIn"))) 0
     = ({["title"]} : gset string)
  /\ step (Intersection [entry]) (page "fade in") = page "fade in".
Proof.
  intros heading page entry.
  assert (H1 : forall a, "animate__animated" ∉ classes (heading a)).
  { intros a. apply (bool_decide_unpack _). vm_compute. exact I. }
  assert (H2 : "animate__" +:+ "fadeIn" ∉ classes (heading "fadeIn")).
  { apply (bool_decide_unpack _). vm_compute. exact I. }
  assert (H3 : "animate__" +:+ "fade in" ∉ classes (heading "fade in")).
  { apply (bool_decide_unpack _). vm_compute. exact I. }
  destruct (observer_animation_round_trip (page "fadeIn") 0%nat (heading "fadeIn") "fadeIn"
              eq_refl eq_refl eq_refl (H1 _) H2) as (Hok & _ & _).
  assert (Hfree : free_of_white_space "fadeIn").
  { apply has_ascii_whitespace_spec. reflexivity. }
  assert (Hspace : ~ free_of_white_space "fade in").
  { rewrite <- has_ascii_whitespace_spec. discriminate. }
  destruct (Hok Hfree) as (Hadd & _ & Hend).
  destruct (observer_animation_round_trip (page "fade in") 0%nat (heading "fade in")
              "fade in" eq_refl eq_refl eq_refl (H1 _) H3) as (_ & Hthrow & _).
  split; [|split; [exact Hend | exact (Hthrow Hspace [])]].
  etransitivity; [exact Hadd|].
  apply (bool_decide_unpack _). vm_compute. exact I.
Defined.

End Observer.

Section Counters.

Import Counter.

Lemma frames_S (n : nat) (target : Js.number) (s : t) :
  frames (S n) target s = frame target (frames n target s).
Proof. reflexivity. Qed.

Lemma frames_add (a b : nat) (target : Js.number) (s : t) :
  frames (a + b) target s = frames a target (frames b target s).
Proof. unfold frames. apply Nat.iter_add. Qed.

Lemma frames_stopped (n : nat) (target : Js.number) (s : t) :
  frame_requested s = false -> frames n target s = s.
Proof.
  intros Hs. induction n as [|n IH]; [reflexivity|].
  rewrite frames_S, IH. unfold frame. rewrite Hs. reflexivity.
Qed.

Lemma counter_progress (t : Q) (text0 : Js.number) (n : nat) :
  (0 < t)%Q -> (n < 200)%nat ->
  exists c : Q,
    frames n (num t) (animateCounter (num t) text0)
    = {| current := num c; textContent := JsMath.floor (num c); frame_requested := true |}
    /\ (c == inject_Z (Z.of_nat (S n)) * (t / 200))%Q.
Proof.
  intros Ht. induction n as [|n IH]; intros Hn.
  - exists (0 + t / 200)%Q. split.
    + cbn [frames Nat.iter]. unfold animateCounter, updateCounter.
      cbn [current Js.lt Js.div Js.add]. unfold Js.sgn.
      replace (Qle_bool t 0) with false
        by (symmetry; apply not_true_is_false; rewrite Qle_bool_iff; lra).
      reflexivity.
    + change (inject_Z (Z.of_nat 1)) with 1%Q. ring.
  - destruct IH as (c & Hc & Hceq); [lia|].
    exists (c + t / 200)%Q. split.
    + rewrite frames_S, Hc. unfold frame. cbn [frame_requested]. unfold updateCounter.
      cbn [current Js.lt Js.div Js.add]. unfold Js.sgn.
      assert (Hlt : (c < t)%Q).
      { rewrite Hceq. assert (H199 : (inject_Z (Z.of_nat (S n)) <= 199)%Q).
        { change 199%Q with (inject_Z 199). rewrite <- Zle_Qle. lia. }
        assert (Hdiv : (t / 200 == t * (1 # 200))%Q) by field.
        rewrite Hdiv. nra. }
      replace (Qle_bool t c) with false
        by (symmetry; apply not_true_is_false; rewrite Qle_bool_iff; lra).
      reflexivity.
    + rewrite Hceq. rewrite (Nat2Z.inj_succ (S n)). unfold Z.succ.
      rewrite inject_Z_plus. change (inject_Z 1) with 1%Q. ring.
Qed.

(** X10.  [animateCounter] always ends with the counter showing its
    target: for a positive target, once the first call and 201 frames
    have run the counter shows the target itself and no further frame
    is requested, however many frames follow; for a target that is
    zero, negative or not a number the target is written at once. *)
Theorem animateCounter_reaches_target :
  (forall (t : Q) (text0 : Js.number) (n : nat),
      (0 < t)%Q -> (201 <= n)%nat ->
      let s := frames n (num t) (animateCounter (num t) text0) in
      textContent s = num t /\ frame_requested s = false)
  /\ (forall (target text0 : Js.number),
        Js.lt (num 0) target = false ->
        textContent (animateCounter target text0) = target
        /\ frame_requested (animateCounter target text0) = false).
Proof.
  split.
  - intros t text0 n Ht Hn s.
    assert (Hend : exists c, frames 200 (num t) (animateCounter (num t) text0)
                             = {| current := c; textContent := num t;
                                  frame_requested := false |}).
    { destruct (counter_progress t text0 199 Ht ltac:(lia)) as (c & Hc & Hceq).
      rewrite (frames_S 199), Hc. unfold frame. cbn [frame_requested]. unfold updateCounter.
      cbn [current Js.lt].
      assert (Hct : (c == t)%Q).
      { rewrite Hceq. change (inject_Z (Z.of_nat 200)) with 200%Q. field. }
      replace (Qle_bool t c) with true
        by (symmetry; apply Qle_bool_iff; lra).
      eexists. reflexivity. }
    destruct Hend as (c & Hend).
    assert (Hs : s = {| current := c; textContent := num t; frame_requested := false |}).
    { subst s. replace n with ((n - 200) + 200)%nat by lia.
      rewrite frames_add, Hend. apply frames_stopped. reflexivity. }
    rewrite Hs. split; reflexivity.
  - intros target text0 Hneg. unfold animateCounter, updateCounter.
    cbn [current]. rewrite Hneg. split; reflexivity.
Qed.

(** A counter that goes up to 150, and one whose count is zero. *)
Lemma animateCounter_reaches_target_witness :
  textContent (frames 201 (num 150) (animateCounter (num 150) (num 0))) = num 150
  /\ textContent (animateCounter (num 0) (num 7)) = num 0.
Proof.
  destruct animateCounter_reaches_target as [Hpos Hneg].
  split.
  - exact (proj1 (Hpos 150%Q (num 0) 201%nat ltac:(reflexivity) ltac:(lia))).
  - exact (proj1 (Hneg (num 0) (num 7) eq_refl)).
Defined.

End Counters.

(** ** The project filter *)

Section Projects.

Import ProjectsManager.

Lemma filterProjects_cards (f : option string) (s : t) :
  projectCards (filterProjects f s)
  = map (fun c => {| data_category := data_category c;
                     display := if bool_decide (f = Some "all")
                                   || bool_decide (data_category c = f)
                                then "block" else "none" |})
        (projectCards s).
Proof. reflexivity. Qed.

(** X11.  The cards shown depend on the last filter only: filtering
    after another filter gives what filtering alone gives, no card is
    lost or changes category, a card is displayed exactly when the
    filter is 'all' or equals its category, and 'all' displays every
    card. *)
Theorem filterProjects_last_filter_wins :
  forall (f g : option string) (s : t),
    filterProjects f (filterProjects g s) = filterProjects f s
    /\ map data_category (projectCards (filterProjects f s))
       = map data_category (projectCards s)
    /\ (forall c, c ∈ projectCards (filterProjects f s) ->
                  (display c = "block" <-> f = Some "all" \/ data_category c = f)
                  /\ (display c = "none" <-> ~ (f = Some "all" \/ data_category c = f)))
    /\ (forall c, c ∈ projectCards (filterProjects (Some "all") (filterProjects g s)) ->
                  display c = "block").
Proof.
  intros f g s. split; [|split; [|split]].
  - unfold filterProjects. cbn [projectCards filterButtons activeFilter].
    f_equal. rewrite map_map. reflexivity.
  - rewrite filterProjects_cards, map_map. reflexivity.
  - intros c Hc. rewrite filterProjects_cards in Hc.
    apply list_elem_of_In, in_map_iff in Hc as (c0 & <- & _). cbn [display data_category].
    destruct (bool_decide (f = Some "all")) eqn:E1;
      destruct (bool_decide (data_category c0 = f)) eqn:E2; cbn [orb];
      try apply bool_decide_eq_true in E1; try apply bool_decide_eq_false in E1;
      try apply bool_decide_eq_true in E2; try apply bool_decide_eq_false in E2;
      split; split; intros H; try discriminate; try reflexivity; tauto.
  - intros c Hc. rewrite filterProjects_cards in Hc.
    apply list_elem_of_In, in_map_iff in Hc as (c0 & <- & _). reflexivity.
Qed.

(** X12.  A click on a filter button makes its filter the active one
    and marks exactly the buttons that carry this filter, the clicked
    one among them, as active and selected. *)
Theorem onFilterClick_marks_the_filter :
  forall (s : t) (i : nat) (b : FilterButton),
    filterButtons s !! i = Some b ->
    let s' := onFilterClick i s in
    activeFilter s' = data_filter b
    /\ length (filterButtons s') = length (filterButtons s)
    /\ (forall b', b' ∈ filterButtons s' ->
                   ("active" ∈ button_classes b' <-> data_filter b' = data_filter b)
                   /\ (aria_selected b' = "true" <-> data_filter b' = data_filter b))
    /\ (exists b', filterButtons s' !! i = Some b' /\ "active" ∈ button_classes b').
Proof.
  intros s i b Hb s'. subst s'. unfold onFilterClick. rewrite Hb.
  unfold filterProjects, setActiveFilter. cbn [activeFilter filterButtons].
  split; [reflexivity|]. split; [apply length_map|]. split.
  - intros b' Hb'. apply list_elem_of_In, in_map_iff in Hb' as (b0 & <- & _).
    cbn [button_classes data_filter aria_selected].
    destruct (bool_decide (data_filter b0 = data_filter b)) eqn:E.
    + apply bool_decide_eq_true in E. class_list. split; split; auto.
    + apply bool_decide_eq_false in E. class_list.
      split; split; intros H; try discriminate; tauto.
  - eexists. split.
    + rewrite lookup_map, Hb. reflexivity.
    + cbn [button_classes]. rewrite bool_decide_eq_true_2 by reflexivity.
      class_list. auto.
Qed.

(** Three buttons, two of them for the web projects. *)
Lemma onFilterClick_marks_the_filter_witness :
  let btn f := {| data_filter := Some f; button_classes := ∅; aria_selected := "false" |} in
  let s := {| filterButtons := [btn "all"; btn "web"; btn "web"];
              projectCards := [{| data_category := Some "web"; display := "block" |};
                               {| data_category := Some "app"; display := "block" |}];
              activeFilter := Some "all" |} in
  activeFilter (onFilterClick 1 s) = Some "web"
  /\ map display (projectCards (onFilterClick 1 s)) = ["block"; "none"].
Proof.
  intros btn s. split; [|reflexivity].
  exact (proj1 (onFilterClick_marks_the_filter s 1%nat (btn "web") eq_refl)).
Defined.

End Projects.

(** ** Validation and the submission guard *)

Section Validation.

Import ContactFormManager.

Lemma validateField_validated validity (f : Field) :
  required f = true ->
  validated validity f (validateField (validity (field_id f)) f).1.
Proof.
  intros Hreq. unfold validated, validateField. rewrite Hreq.
  destruct (valid (validity (field_id f))); cbn [fst value field_id field_classes
                                                  showError hideError];
    (split; [reflexivity|]); (split; [reflexivity|]); class_list;
    split; intros H; try discriminate; tauto.
Qed.

(** X13.  [validateForm] answers true exactly when every required
    field is valid.  It leaves every value as it is, does not touch
    the fields that are not required, and leaves the class [error] on
    a required field exactly when that field is invalid. *)
Theorem validateForm_checks_required_fields :
  forall (validity : string -> Validity) (fs : list Field),
    Forall2 (validated validity) fs (validateForm validity fs).1
    /\ ((validateForm validity fs).2 = true
        <-> forall f, f ∈ fs -> required f = true ->
                      valid (validity (field_id f)) = true).
Proof.
  intros validity fs. induction fs as [|f fs [IH1 IH2]].
  - split; [constructor|]. split; [intros _ f Hf; inversion Hf | reflexivity].
  - cbn [validateForm]. destruct (validateForm validity fs) as [rest ok].
    cbn [fst snd] in *.
    destruct (required f) eqn:Hreq.
    + pose proof (validateField_validated validity f Hreq) as Hv.
      unfold validateField in *.
      destruct (valid (validity (field_id f))) eqn:Hvalid; cbn [fst snd andb] in *.
      * split; [constructor; assumption|]. rewrite IH2. split.
        -- intros H g Hg Hgr. apply elem_of_cons in Hg as [->|Hg]; [exact Hvalid | auto].
        -- intros H g Hg Hgr. apply H; [apply elem_of_cons; auto | exact Hgr].
      * split; [constructor; assumption|]. split; [discriminate|].
        intros H. rewrite <- Hvalid. apply H; [apply elem_of_cons; auto | exact Hreq].
    + cbn [fst snd]. split.
      * constructor; [|exact IH1]. unfold validated. rewrite Hreq. auto.
      * rewrite IH2. split.
        -- intros H g Hg Hgr. apply elem_of_cons in Hg as [->|Hg]; [congruence | auto].
        -- intros H g Hg Hgr. apply H; [apply elem_of_cons; auto | exact Hgr].
Qed.

Lemma handleSubmit_begin_submitting validity (s : t) :
  formSubmitting s = true -> handleSubmit_begin validity s = (s, false).
Proof. intros H. unfold handleSubmit_begin. rewrite H. reflexivity. Qed.

(** X14.  A submission cannot start while another one is under way,
    and the form never stays locked.  While [STATE.formSubmitting] is
    set, [handleSubmit] changes nothing; from an idle form a valid
    submission sets the flag and disables the button until the promise
    settles, and whatever the outcome the flag is cleared and the
    button enabled again; an invalid submission starts nothing: it
    shows the one notification and leaves the button, the flag and
    the values alone. *)
Theorem handleSubmit_guard_and_release :
  (forall validity draw (s : t),
      formSubmitting s = true -> handleSubmit validity draw s = s)
  /\ (forall validity (s : t),
        formSubmitting s = false ->
        (validateForm validity (fields s)).2 = true ->
        let s1 := (handleSubmit_begin validity s).1 in
        formSubmitting s1 = true
        /\ disabled (submitBtn s1) = true
        /\ (forall validity' draw', handleSubmit validity' draw' s1 = s1)
        /\ (forall draw, formSubmitting (handleSubmit_resume draw s1) = false
                         /\ disabled (submitBtn (handleSubmit_resume draw s1)) = false))
  /\ (forall validity draw (s : t),
        formSubmitting s = false ->
        (validateForm validity (fields s)).2 = false ->
        let s' := handleSubmit validity draw s in
        notifications s'
        = notifications s
          ++ [{| Dom.message := "Veuillez corriger les erreurs dans le formulaire.";
                 Dom.kind := "error" |}]
        /\ formSubmitting s' = false
        /\ submitBtn s' = submitBtn s
        /\ successMessage s' = successMessage s
        /\ console_errors s' = console_errors s
        /\ map value (fields s') = map value (fields s)).
Proof.
  split; [|split].
  - intros validity draw s H. unfold handleSubmit.
    rewrite handleSubmit_begin_submitting by exact H. reflexivity.
  - intros validity s Hidle Hvalid s1. subst s1. unfold handleSubmit_begin.
    rewrite Hidle. destruct (validateForm validity (fields s)) as [fs ok].
    cbn [snd] in Hvalid. subst ok. cbn [fst formSubmitting submitBtn].
    split; [reflexivity|]. split; [reflexivity|]. split.
    + intros validity' draw'. unfold handleSubmit.
      rewrite handleSubmit_begin_submitting by reflexivity. reflexivity.
    + intros draw. split; reflexivity.
  - intros validity draw s Hidle Hinvalid s'. subst s'.
    unfold handleSubmit, handleSubmit_begin. rewrite Hidle.
    pose proof (validateForm_values validity (fields s)) as Hvals.
    destruct (validateForm validity (fields s)) as [fs ok].
    cbn [fst snd] in *. subst ok.
    cbn [showNotification notifications formSubmitting submitBtn successMessage
         console_errors fields].
    repeat split; assumption.
Qed.

End Validation.

(** ** The address check of the newsletter *)

Section Email.

Import NewsletterManager.

Lemma is_empty_nil (s : Js.str) : is_empty s = true <-> s = [].
Proof. destruct s; cbn; split; congruence. Qed.

Lemma is_space_white_space (c : N) : is_space c = true <-> c ∈ white_space.
Proof.
  unfold white_space. rewrite !elem_of_cons, elem_of_nil. unfold is_space.
  rewrite !orb_true_iff, !andb_true_iff, !N.eqb_eq, !N.leb_le. lia.
Qed.

Lemma plain_spec (c : N) : plain c = true <-> (c ∉ white_space) /\ c <> 64%N.
Proof.
  unfold plain, at_sign. rewrite andb_true_iff, !negb_true_iff, N.eqb_neq.
  rewrite <- is_space_white_space. destruct (is_space c); intuition congruence.
Qed.

Lemma plain_part_spec (s : Js.str) :
  plain_part s <-> s <> [] /\ Forall (fun c => plain c = true) s.
Proof.
  unfold plain_part. split; intros [Hne H]; (split; [exact Hne|]);
    (eapply Forall_impl; [exact H|]); intros c Hc; apply plain_spec; exact Hc.
Qed.

Lemma skip_plain_all (s : Js.str) :
  Forall (fun c => plain c = true) s -> skip_plain s = [].
Proof.
  induction 1 as [|c s Hc Hs IH]; [reflexivity|].
  cbn [skip_plain]. rewrite Hc. exact IH.
Qed.

Lemma skip_plain_split (s : Js.str) :
  exists a, s = a ++ skip_plain s /\ Forall (fun c => plain c = true) a.
Proof.
  induction s as [|c s (a & Ha & Hp)].
  - exists []. split; [reflexivity | constructor].
  - cbn [skip_plain]. destruct (plain c) eqn:Hc.
    + exists (c :: a). cbn [app]. rewrite <- Ha.
      split; [reflexivity|]. constructor; assumption.
    + exists []. split; [reflexivity | constructor].
Qed.

Lemma skip_plain_app (a r : Js.str) (c : N) :
  Forall (fun c => plain c = true) a -> plain c = false ->
  skip_plain (a ++ c :: r) = c :: r.
Proof.
  intros Ha Hc. induction Ha as [|x a Hx Ha IH].
  - cbn. rewrite Hc. reflexivity.
  - cbn [app skip_plain]. rewrite Hx. exact IH.
Qed.

Lemma skip_plain_empty_all (s : Js.str) :
  skip_plain s = [] -> Forall (fun c => plain c = true) s.
Proof.
  intros H. destruct (skip_plain_split s) as (a & Ha & Hp).
  rewrite H, app_nil_r in Ha. subst a. exact Hp.
Qed.

Lemma at_sign_not_plain : plain at_sign = false.
Proof. reflexivity. Qed.

Lemma dot_inside_sound (s : Js.str) :
  dot_inside s = true ->
  exists b c, s = b ++ [dot] ++ c
              /\ Forall (fun c => plain c = true) b /\ plain_part c.
Proof.
  induction s as [|x s IH]; [discriminate|].
  cbn [dot_inside]. rewrite andb_true_iff, orb_true_iff, !andb_true_iff.
  intros [Hx [[[Hdot Hne] Hall]|Hrest]].
  - apply N.eqb_eq in Hdot. subst x.
    exists [], s. split; [reflexivity|]. split; [constructor|].
    apply plain_part_spec. split.
    + intros ->. discriminate.
    + apply skip_plain_empty_all. apply is_empty_nil. exact Hall.
  - destruct (IH Hrest) as (b & c & -> & Hb & Hc).
    exists (x :: b), c. split; [reflexivity|]. split; [|exact Hc].
    constructor; assumption.
Qed.

Lemma dot_inside_complete (b c : Js.str) :
  Forall (fun c => plain c = true) b -> plain_part c ->
  dot_inside (b ++ [dot] ++ c) = true.
Proof.
  intros Hb Hpart. apply plain_part_spec in Hpart as [Hne Hc].
  induction Hb as [|x b Hx Hb IH].
  - cbn [app dot_inside]. rewrite skip_plain_all by exact Hc.
    destruct c; [contradiction | reflexivity].
  - cbn [app dot_inside] in *. rewrite Hx, IH. apply orb_true_r.
Qed.

Lemma at_then_domain (r : Js.str) :
  match r with
  | a :: d :: domain => (a =? at_sign)%N && plain d && dot_inside domain
  | _ => false
  end = true ->
  exists d domain, r = at_sign :: d :: domain
                   /\ plain d = true /\ dot_inside domain = true.
Proof.
  destruct r as [|a [|d domain]]; try discriminate.
  rewrite !andb_true_iff. intros [[Ha Hd] Hdom].
  apply N.eqb_eq in Ha. subst a. exists d, domain. auto.
Qed.

(** X15.  [validateEmail] accepts exactly the addresses made of a
    part, an [@], a part, a dot and a part, where a part is not empty
    and holds neither white space nor [@] (the middle and last parts
    may hold further dots).  The address is taken as its UTF-16 code
    units, and white space is what [\s] matches: the ASCII white space
    and also the no-break space, the Unicode space separators, the
    line and paragraph separators and U+FEFF. *)
Theorem validateEmail_accepts_exactly :
  forall email : Js.str,
    validateEmail email = true
    <-> exists a b c,
          email = a ++ [64%N] ++ b ++ [46%N] ++ c
          /\ plain_part a /\ plain_part b /\ plain_part c.
Proof.
  intros email. split.
  - unfold validateEmail. destruct email as [|x rest] eqn:He; [discriminate|].
    rewrite <- He. rewrite andb_true_iff. intros [Hx Hat].
    apply at_then_domain in Hat as (d & domain & Hskip & Hd & Hdom).
    destruct (skip_plain_split email) as (a & Ha & Hpa). rewrite Hskip in Ha.
    destruct (dot_inside_sound domain Hdom) as (b & c & -> & Hb & Hc).
    exists a, (d :: b), c. split; [exact Ha|]. split; [|split; [|exact Hc]].
    + apply plain_part_spec. split; [|exact Hpa]. intros ->. cbn [app] in Ha.
      rewrite He in Ha. injection Ha as -> _. discriminate.
    + apply plain_part_spec. split; [discriminate|]. constructor; assumption.
  - intros (a & b & c & -> & Hpa & Hpb & Hc).
    apply plain_part_spec in Hpa as [Hna Ha]. apply plain_part_spec in Hpb as [Hnb Hb].
    destruct a as [|x a]; [contradiction|]. destruct b as [|d b]; [contradiction|].
    inversion Ha as [|? ? Hx Ha']; subst. inversion Hb as [|? ? Hd Hb']; subst.
    unfold validateEmail. cbn [app]. rewrite Hx. cbn [andb].
    change (x :: a ++ 64%N :: d :: b ++ 46%N :: c)
      with ((x :: a) ++ at_sign :: d :: (b ++ [dot] ++ c)).
    rewrite skip_plain_app by (assumption || reflexivity).
    rewrite N.eqb_refl, Hd, dot_inside_complete
      by (assumption || (apply plain_part_spec; split; assumption)).
    reflexivity.
Qed.

End Email.

(** ** The time on the page and the name of a download *)

Section TimeOnPage.

Import SimpleAnalytics.

Lemma ticks_early (n : nat) :
  (n < 10)%nat ->
  ticks n = {| timeSpent := 30 * Z.of_nat n; interval_set := true; console := [] |}.
Proof.
  induction n as [|n IH]; intros Hn; [reflexivity|].
  unfold ticks in *. rewrite Nat.iter_succ, IH by lia.
  unfold tick. cbn [interval_set timeSpent console].
  destruct (Z.leb_spec 300 (30 * Z.of_nat n + 30)) as [H|H]; [lia|].
  f_equal. lia.
Qed.

Lemma ticks_late (n : nat) :
  (10 <= n)%nat ->
  ticks n = {| timeSpent := 300; interval_set := false; console := [300%Z] |}.
Proof.
  induction n as [|n IH]; intros Hn; [lia|].
  unfold ticks in *. rewrite Nat.iter_succ.
  destruct (Nat.eq_dec n 9) as [->|Hne].
  - fold (ticks 9). rewrite ticks_early by lia. reflexivity.
  - rewrite IH by lia. reflexivity.
Qed.

(** X16.  The time on the page is logged once and only once: the
    first nine ticks of the interval log nothing, the tenth logs 300
    seconds and clears the interval, and no later tick changes
    anything; the counter never exceeds 300. *)
Theorem trackTimeOnPage_logs_once :
  forall n : nat,
    console (ticks n) = (if (n <? 10)%nat then [] else [300%Z])
    /\ interval_set (ticks n) = (n <? 10)%nat
    /\ timeSpent (ticks n) = (30 * Z.of_nat (Nat.min n 10))%Z.
Proof.
  intros n. destruct (Nat.ltb_spec n 10) as [Hlt|Hge].
  - rewrite ticks_early by exact Hlt. cbn [console interval_set timeSpent].
    rewrite Nat.min_l by lia. repeat split.
  - rewrite ticks_late by exact Hge. cbn [console interval_set timeSpent].
    rewrite Nat.min_r by exact Hge. repeat split.
Qed.

End TimeOnPage.

Section DownloadName.

Import Download.

Lemma string_app_nil_r (s : string) : s +:+ "" = s.
Proof.
  induction s as [|c s IH]; [reflexivity|]. rewrite string_app_cons, IH. reflexivity.
Qed.

Lemma no_slash_cons (c : ascii) (s : string) :
  c <> "/"%char -> no_slash s -> no_slash (String c s).
Proof. intros Hc Hs. unfold no_slash. cbn. constructor; assumption. Qed.

(** Splitting at the slashes loses nothing: the parts hold no slash
    and joined by slashes they give the string back. *)
Lemma split_joined (s : string) :
  exists first rest,
    split s = first :: rest
    /\ s = first +:+ slash_joined rest
    /\ no_slash first /\ Forall no_slash rest.
Proof.
  induction s as [|c s (first & rest & Hs & Hjoin & Hf & Hr)].
  - exists "", []. repeat split; constructor.
  - cbn [split]. rewrite Hs. destruct (Ascii.eqb c "/") eqn:Hc.
    + apply Ascii.eqb_eq in Hc. subst c.
      exists "", (first :: rest). split; [reflexivity|]. split.
      * rewrite string_app_nil. cbn [slash_joined].
        change ("/" +:+ first +:+ slash_joined rest)
          with (String "/" (first +:+ slash_joined rest)).
        rewrite <- Hjoin. reflexivity.
      * split; [constructor | constructor; assumption].
    + apply Ascii.eqb_neq in Hc.
      exists (String c first), rest. split; [reflexivity|]. split.
      * rewrite string_app_cons, <- Hjoin. reflexivity.
      * split; [apply no_slash_cons; assumption | exact Hr].
Qed.

Lemma last_of_joined (rest : list string) (first : string) :
  no_slash first -> Forall no_slash rest ->
  exists name prefix,
    last (first :: rest) = Some name
    /\ first +:+ slash_joined rest = prefix +:+ name
    /\ no_slash name
    /\ (prefix = "" \/ exists p, prefix = p +:+ "/").
Proof.
  revert first. induction rest as [|part rest IH]; intros first Hf Hr.
  - exists first, "". split; [reflexivity|]. split.
    + cbn [slash_joined]. rewrite string_app_nil_r, string_app_nil. reflexivity.
    + split; [exact Hf | left; reflexivity].
  - inversion Hr as [|? ? Hpart Hrest]; subst.
    destruct (IH part Hpart Hrest) as (name & prefix & Hlast & Hjoin & Hname & Hprefix).
    exists name, (first +:+ "/" +:+ prefix). split; [|split; [|split]].
    + rewrite last_cons_cons. exact Hlast.
    + cbn [slash_joined]. rewrite Hjoin, !string_app_assoc. reflexivity.
    + exact Hname.
    + right. destruct Hprefix as [->|(p & ->)].
      * exists first. rewrite string_app_nil_r. reflexivity.
      * exists (first +:+ "/" +:+ p). rewrite !string_app_assoc. reflexivity.
Qed.

(** X17.  The name logged for a download is the part of the address
    after its last slash: the address is some prefix followed by the
    name, the name holds no slash, and the prefix is empty (then the
    name is the whole address) or ends with a slash. *)
Theorem download_name_is_last_segment :
  forall href : string,
    exists name prefix,
      download_name href = Some name
      /\ href = prefix +:+ name
      /\ no_slash name
      /\ (prefix = "" \/ exists p, prefix = p +:+ "/").
Proof.
  intros href. unfold download_name, pop.
  destruct (split_joined href) as (first & rest & Hs & Hjoin & Hf & Hr).
  destruct (last_of_joined rest first Hf Hr) as (name & prefix & Hlast & Heq & Hn & Hp).
  exists name, prefix. rewrite Hs. split; [exact Hlast|]. split; [|auto].
  rewrite Hjoin. exact Heq.
Qed.

End DownloadName.

(** ** Particles, the cursor follower and the random choices *)

Section AddOn.

Local Open Scope R_scope.

Lemma move_keeps_speed (w h : R) (m : ParticlesBackground.Mouse)
    (p : ParticlesBackground.Particle) :
  let p' := ParticlesBackground.move w h m p in
  Rabs (ParticlesBackground.vx p') = Rabs (ParticlesBackground.vx p)
  /\ Rabs (ParticlesBackground.vy p') = Rabs (ParticlesBackground.vy p)
  /\ ParticlesBackground.size p' = ParticlesBackground.size p
  /\ ParticlesBackground.color p' = ParticlesBackground.color p
  /\ ParticlesBackground.opacity p' = ParticlesBackground.opacity p.
Proof.
  assert (Hflip : forall v, Rabs (v * -1) = Rabs v).
  { intros v. replace (v * -1) with (- v) by ring. apply Rabs_Ropp. }
  unfold ParticlesBackground.move. cbv zeta.
  destruct (ParticlesBackground.Rltb (sqrt _) _);
    cbn [ParticlesBackground.vx ParticlesBackground.vy ParticlesBackground.size
         ParticlesBackground.color ParticlesBackground.opacity];
    repeat split;
    match goal with
    | |- Rabs (if ?c then _ else _) = _ => destruct c; [apply Hflip | reflexivity]
    end.
Qed.

Lemma animate_particles (s : ParticlesBackground.t) :
  ParticlesBackground.particles (ParticlesBackground.animate s)
  = map (ParticlesBackground.move (ParticlesBackground.width s)
                                  (ParticlesBackground.height s)
                                  (ParticlesBackground.mouse s))
        (ParticlesBackground.particles s).
Proof. reflexivity. Qed.

(** X18.  Frames never change how fast a particle is, how it looks or
    how many particles there are: after any number of frames every
    particle has the speed it had on each axis (a bounce only reverses
    the direction), its size, its colour and its opacity. *)
Theorem particles_keep_their_speed :
  forall (n : nat) (s : ParticlesBackground.t) (i : nat) (p : ParticlesBackground.Particle),
    ParticlesBackground.particles s !! i = Some p ->
    length (ParticlesBackground.particles (particle_frames n s))
    = length (ParticlesBackground.particles s)
    /\ exists p',
         ParticlesBackground.particles (particle_frames n s) !! i = Some p'
         /\ Rabs (ParticlesBackground.vx p') = Rabs (ParticlesBackground.vx p)
         /\ Rabs (ParticlesBackground.vy p') = Rabs (ParticlesBackground.vy p)
         /\ ParticlesBackground.size p' = ParticlesBackground.size p
         /\ ParticlesBackground.color p' = ParticlesBackground.color p
         /\ ParticlesBackground.opacity p' = ParticlesBackground.opacity p.
Proof.
  intros n s i p Hp. induction n as [|n (Hlen & p' & Hp' & Hvx & Hvy & Hs & Hc & Ho)].
  - split; [reflexivity|]. exists p. split; [exact Hp|]. repeat split.
  - unfold particle_frames in *. rewrite Nat.iter_succ, animate_particles.
    split; [rewrite length_map; exact Hlen|].
    eexists. rewrite lookup_map, Hp'. split; [reflexivity|].
    destruct (move_keeps_speed
                (ParticlesBackground.width (Nat.iter n ParticlesBackground.animate s))
                (ParticlesBackground.height (Nat.iter n ParticlesBackground.animate s))
                (ParticlesBackground.mouse (Nat.iter n ParticlesBackground.animate s)) p')
      as (H1 & H2 & H3 & H4 & H5).
    repeat split; congruence.
Qed.

(** A particle that leaves the canvas to the right comes back with the
    same speed. *)
Lemma particles_keep_their_speed_witness :
  let p := {| ParticlesBackground.x := 799; ParticlesBackground.y := 500;
              ParticlesBackground.vx := 3; ParticlesBackground.vy := 0;
              ParticlesBackground.size := 2; ParticlesBackground.color := "#7c3aed";
              ParticlesBackground.opacity := 1 |} in
  let s := {| ParticlesBackground.width := 800; ParticlesBackground.height := 600;
              ParticlesBackground.particles := [p];
              ParticlesBackground.mouse := ParticlesBackground.initial_mouse |} in
  exists p', ParticlesBackground.particles (particle_frames 5 s) !! 0%nat = Some p'
             /\ Rabs (ParticlesBackground.vx p') = Rabs 3.
Proof.
  intros p s.
  destruct (particles_keep_their_speed 5 s 0%nat p eq_refl) as (_ & p' & Hp' & Hvx & _).
  exists p'. split; [exact Hp' | exact Hvx].
Defined.

End AddOn.

Section Follower.

Import CursorFollower.

Lemma approach_between (p t : Q) : between p (p + (t - p) * (2 # 10)) t.
Proof. unfold between. split; intros H; split; lra. Qed.

Lemma between_trans (a b b' c : Q) : between a b c -> between b b' c -> between a b' c.
Proof.
  unfold between. intros [H1 H2] [H3 H4]. split; intros H.
  - destruct (H1 H) as [Hab Hbc]. destruct (H3 Hbc). split; lra.
  - destruct (H2 H) as [Hcb Hba]. destruct (H4 Hcb). split; lra.
Qed.

Lemma animate_finite (s : t) (px py tx ty : Q) :
  pos_x s = num px -> pos_y s = num py ->
  target_x s = num tx -> target_y s = num ty ->
  pos_x (animate s) = num (px + (tx - px) * (2 # 10))
  /\ pos_y (animate s) = num (py + (ty - py) * (2 # 10))
  /\ target_x (animate s) = num tx /\ target_y (animate s) = num ty.
Proof.
  intros Hpx Hpy Htx Hty. unfold animate. cbn [pos_x pos_y target_x target_y].
  rewrite Hpx, Hpy, Htx, Hty. repeat split.
Qed.

Lemma follower_frames (n : nat) (s : t) (px py tx ty : Q) :
  pos_x s = num px -> pos_y s = num py ->
  target_x s = num tx -> target_y s = num ty ->
  exists qx qy,
    pos_x (frames n s) = num qx /\ pos_y (frames n s) = num qy
    /\ target_x (frames n s) = num tx /\ target_y (frames n s) = num ty
    /\ between px qx tx /\ between py qy ty.
Proof.
  intros Hpx Hpy Htx Hty. induction n as [|n (qx & qy & Hqx & Hqy & Hx & Hy & Hbx & Hby)].
  - exists px, py. repeat split; auto; lra.
  - unfold frames in *. rewrite Nat.iter_succ.
    destruct (animate_finite _ qx qy tx ty Hqx Hqy Hx Hy) as (H1 & H2 & H3 & H4).
    exists (qx + (tx - qx) * (2 # 10))%Q, (qy + (ty - qy) * (2 # 10))%Q.
    do 4 (split; [assumption|]).
    split; eapply between_trans; eauto using approach_between.
Qed.

(** X19.  The cursor follower never overshoots: with the pointer at
    rest, after any number of frames its position lies on each axis
    between where it started and the pointer, and each further frame
    leaves it between where it was and the pointer. *)
Theorem follower_never_overshoots :
  forall (n : nat) (s : t) (px py tx ty : Q),
    pos_x s = num px -> pos_y s = num py ->
    target_x s = num tx -> target_y s = num ty ->
    exists qx qy qx' qy',
      pos_x (frames n s) = num qx /\ pos_y (frames n s) = num qy
      /\ pos_x (frames (S n) s) = num qx' /\ pos_y (frames (S n) s) = num qy'
      /\ between px qx tx /\ between py qy ty
      /\ between qx qx' tx /\ between qy qy' ty.
Proof.
  intros n s px py tx ty Hpx Hpy Htx Hty.
  destruct (follower_frames n s px py tx ty Hpx Hpy Htx Hty)
    as (qx & qy & Hqx & Hqy & Hx & Hy & Hbx & Hby).
  exists qx, qy, (qx + (tx - qx) * (2 # 10))%Q, (qy + (ty - qy) * (2 # 10))%Q.
  split; [exact Hqx|]. split; [exact Hqy|].
  unfold frames in *. rewrite Nat.iter_succ.
  destruct (animate_finite _ qx qy tx ty Hqx Hqy Hx Hy) as (H1 & H2 & _ & _).
  do 2 (split; [assumption|]). split; [exact Hbx|]. split; [exact Hby|].
  split; apply approach_between.
Qed.

(** A follower at the origin chasing a pointer at (100, 50). *)
Lemma follower_never_overshoots_witness :
  let s := {| pos_x := num 0; pos_y := num 0; target_x := num 100; target_y := num 50;
              currentSize := num 40; cursor := None |} in
  exists qx qy, pos_x (frames 3 s) = num qx /\ pos_y (frames 3 s) = num qy
                /\ between 0 qx 100 /\ between 0 qy 50.
Proof.
  intros s.
  destruct (follower_never_overshoots 3 s 0 0 100 50 eq_refl eq_refl eq_refl eq_refl)
    as (qx & qy & _ & _ & Hqx & Hqy & _ & _ & Hbx & Hby & _).
  exists qx, qy. auto.
Defined.

End Follower.

Section RandomChoice.

Import Choice.

(** X20.  A random choice in an array never runs out of it: for every
    value in [0, 1) that [Math.random()] can return, the index
    [Math.floor(draw * length)] is inside a non-empty array, so a
    reveal type and a particle colour are always chosen. *)
Theorem pick_is_in_the_array :
  forall (A : Type) (l : list A) (q : Q),
    l <> [] -> (0 <= q)%Q -> (q < 1)%Q ->
    exists x, pick l (num q) = Some x /\ x ∈ l.
Proof.
  intros A l q Hl H0 H1. unfold pick. cbn [Js.mul JsMath.floor at_index].
  set (n := Z.of_nat (length l)).
  assert (Hn : (0 < n)%Z) by (subst n; destruct l; [contradiction | cbn; lia]).
  set (z := Qfloor (q * inject_Z n)).
  assert (Hz0 : (0 <= z)%Z).
  { subst z. change 0%Z with (Qfloor (inject_Z 0)). apply Qfloor_resp_le.
    assert (0 < inject_Z n)%Q by (change 0%Q with (inject_Z 0); rewrite <- Zlt_Qlt; lia).
    change (inject_Z 0) with 0%Q. nra. }
  assert (Hzn : (z < n)%Z).
  { rewrite Zlt_Qlt. subst z. pose proof (Qfloor_le (q * inject_Z n)).
    assert (0 < inject_Z n)%Q by (change 0%Q with (inject_Z 0); rewrite <- Zlt_Qlt; lia).
    nra. }
  rewrite Qfloor_Z. fold z.
  replace (Qeq_bool (inject_Z z) (inject_Z z)) with true
    by (symmetry; apply Qeq_bool_iff; reflexivity).
  replace (0 <=? z)%Z with true by (symmetry; apply Z.leb_le; exact Hz0).
  cbn [andb].
  destruct (lookup_lt_is_Some_2 l (Z.to_nat z)) as [x Hx]; [subst n; lia|].
  exists x. split; [exact Hx | eapply list_elem_of_lookup_2; exact Hx].
Qed.

(** A draw of one half picks the second reveal type. *)
Lemma pick_is_in_the_array_witness :
  pick reveals (num (1 # 2)) = Some "fade-left"
  /\ exists c, pick colors (num (999 # 1000)) = Some c /\ c ∈ colors.
Proof.
  split; [reflexivity|].
  apply (pick_is_in_the_array string colors (999 # 1000));
    [discriminate | discriminate | reflexivity].
Defined.

End RandomChoice.

Section Easing.

Import CounterAnimation.





End Easing.

Section Typing.

Import TypingEffect.

Lemma take_next (s : Js.str) (i : nat) :
  (i < length s)%nat -> take (S i) s = take i s ++ charAt i s.
Proof.
  intros Hi. unfold charAt.
  destruct (s !! i) as [c|] eqn:Hc.
  - apply take_S_r. exact Hc.
  - apply lookup_ge_None in Hc. lia.
Qed.

Lemma typing_progress (original : Js.str) (k : nat) :
  (k < length original)%nat ->
  ticks k (init original)
  = {| text := original; textContent := take (S k) original; timer := Some (S k) |}.
Proof.
  induction k as [|k IH]; intros Hk.
  - cbn [ticks Nat.iter]. unfold init, typeText. cbn [text textContent].
    replace (0 <? length original)%nat with true
      by (symmetry; apply Nat.ltb_lt; exact Hk).
    rewrite take_next by exact Hk. reflexivity.
  - unfold ticks in *. rewrite Nat.iter_succ, IH by lia.
    unfold tick. cbn [timer]. unfold typeText. cbn [text textContent].
    replace (S k <? length original)%nat with true
      by (symmetry; apply Nat.ltb_lt; exact Hk).
    rewrite <- take_next by exact Hk. reflexivity.
Qed.

Lemma typing_done (original : Js.str) (k : nat) :
  (length original <= k)%nat ->
  ticks k (init original)
  = {| text := original; textContent := original; timer := None |}.
Proof.
  induction k as [|k IH]; intros Hk.
  - destruct original; [reflexivity | cbn in Hk; lia].
  - unfold ticks in *. rewrite Nat.iter_succ.
    destruct (Nat.eq_dec (length original) (S k)) as [Heq|Hne].
    + fold (ticks k (init original)). rewrite typing_progress by lia.
      unfold tick. cbn [timer]. unfold typeText. cbn [text textContent].
      replace (S k <? length original)%nat with false
        by (symmetry; apply Nat.ltb_ge; lia).
      rewrite <- Heq, firstn_all. reflexivity.
    + rewrite IH by lia. reflexivity.
Qed.

(** X22.  The typing effect types the text it found, code unit by
    code unit and nothing else: after [k] ticks of its timer the
    element holds the first [k + 1] UTF-16 code units of the text
    while the text is longer than [k] code units, and from then on it
    holds the whole text and no timer is pending. *)
Theorem typing_effect_types_the_text :
  forall (original : Js.str) (k : nat),
    let s := ticks k (init original) in
    ((k < length original)%nat ->
     textContent s = take (S k) original /\ timer s = Some (S k))
    /\ ((length original <= k)%nat ->
        textContent s = original /\ timer s = None).
Proof.
  intros original k s. subst s. split; intros Hk.
  - rewrite typing_progress by exact Hk. split; reflexivity.
  - rewrite typing_done by exact Hk. split; reflexivity.
Qed.

(** A text with an accented letter is typed in as many ticks as it
    has code units: three for [Dév], whose UTF-8 form has four bytes. *)
Example typing_accented_text :
  let s := ticks 2 (init (Js.utf16 "Dév")) in
  textContent s = Js.utf16 "Dév" /\ timer (tick s) = None
  /\ textContent (ticks 1 (init (Js.utf16 "Dév"))) = [68; 233]%N.
Proof. cbv zeta. repeat split; reflexivity. Qed.

End Typing.
